(** * linuxkernel: kernel configuration parsing, diffing and patching

    A shallow embedding of [config.go] (package [linuxkernel]) and the
    verification of its specification.

    Go strings are byte sequences: they are modelled as [string], whose
    characters are the 256 values of [ascii].  A [Config] is a Go
    [map[string]string], modelled as a [gmap string string]; a nil map reads
    like the empty map in every operation of this package, so both are [∅].
    Slices are lists (a nil slice and an empty slice are both [[]]). *)

From Stdlib Require Import ZArith Ascii String List Sorted Permutation Lia.
From stdpp Require Import base option list sorting fin_maps gmap strings.

Local Open Scope string_scope.
Local Open Scope list_scope.

(* stdpp's solvers clear hypotheses that are not always there. *)
Set Warnings "-clear-no-such-hyp".

(** ** The Go library functions the package calls

    [strings], [sort] and [bufio] are not part of the repository; the
    definitions below follow their documented behaviour on byte strings. *)

Module strings.

Fixpoint drop (n : nat) (s : string) : string :=
  match n, s with
  | O, _ => s
  | S _, EmptyString => EmptyString
  | S n, String _ s => drop n s
  end.

(** [HasPrefix(s, prefix)]: [len(s) >= len(prefix) && s[:len(prefix)] == prefix]. *)
Definition HasPrefix (s prefix : string) : bool := String.prefix prefix s.

(** [TrimPrefix] returns [s] unchanged when it does not start with [prefix]. *)
Definition TrimPrefix (s prefix : string) : string :=
  if HasPrefix s prefix then drop (String.length prefix) s else s.

Definition HasSuffix (s suffix : string) : bool :=
  (String.length suffix <=? String.length s)%nat &&
  String.eqb
    (substring (String.length s - String.length suffix) (String.length suffix) s)
    suffix.

(** [TrimSuffix] returns [s] unchanged when it does not end with [suffix]. *)
Definition TrimSuffix (s suffix : string) : string :=
  if HasSuffix s suffix
  then substring 0 (String.length s - String.length suffix) s
  else s.

(** The text before and after the first occurrence of [sep] in [s]. *)
Fixpoint Cut (s sep : string) : option (string * string) :=
  if HasPrefix s sep then Some (EmptyString, drop (String.length sep) s)
  else match s with
       | EmptyString => None
       | String c s' =>
           match Cut s' sep with
           | Some (before, after) => Some (String c before, after)
           | None => None
           end
       end.

Fixpoint genSplit (fuel : nat) (s sep : string) : list string :=
  match fuel with
  | O => [s]
  | S fuel =>
      match Cut s sep with
      | Some (before, after) => before :: genSplit fuel after sep
      | None => [s]
      end
  end.

(** [Split(s, sep)] for a non-empty [sep]: [s] is cut at every occurrence of
    [sep], so the result has one more element than there are occurrences.
    Each cut consumes at least one byte, hence [length s] rounds suffice. *)
Definition Split (s sep : string) : list string :=
  genSplit (String.length s) s sep.

Definition bytes (l : list nat) : string :=
  string_of_list_ascii (map ascii_of_nat l).

(** The UTF-8 encodings of the code points for which [unicode.IsSpace]
    holds: U+0009..U+000D, U+0020, U+0085, U+00A0, U+1680, U+2000..U+200A,
    U+2028, U+2029, U+202F, U+205F, U+3000.  Decoding is injective on valid
    encodings and an invalid byte decodes to U+FFFD, which is not a space,
    so a string starts (ends) with a space rune exactly when one of these
    byte strings is a prefix (suffix) of it. *)
Definition spaceRunes : list string :=
  map bytes
    ([[9]; [10]; [11]; [12]; [13]; [32]; [194; 133]; [194; 160];
      [225; 154; 128]] ++
     map (λ b, [226; 128; b]) (seq 128 11) ++
     [[226; 128; 168]; [226; 128; 169]; [226; 128; 175]; [226; 129; 159];
      [227; 128; 128]]).

Fixpoint trimLeftSpace (fuel : nat) (s : string) : string :=
  match fuel with
  | O => s
  | S fuel =>
      match List.find (HasPrefix s) spaceRunes with
      | Some r => trimLeftSpace fuel (drop (String.length r) s)
      | None => s
      end
  end.

Fixpoint trimRightSpace (fuel : nat) (s : string) : string :=
  match fuel with
  | O => s
  | S fuel =>
      match List.find (HasSuffix s) spaceRunes with
      | Some r => trimRightSpace fuel (TrimSuffix s r)
      | None => s
      end
  end.

(** [TrimSpace(s)]: [s] without leading and trailing white space. *)
Definition TrimSpace (s : string) : string :=
  let s := trimLeftSpace (String.length s) s in
  trimRightSpace (String.length s) s.

End strings.

Module sort.

Section insertion.
Context {A : Type} (less : A → A → bool).

(** The sorted prefix is kept in reverse, last element first: the new
    element moves left while it is less than its predecessor. *)
Fixpoint insertLeft (x : A) (prefix : list A) : list A :=
  match prefix with
  | [] => [x]
  | y :: rest => if less x y then y :: insertLeft x rest else x :: prefix
  end.

(** [sort.Slice(s, less)].  The library promises a sorted permutation and
    no stability; what it returns is therefore determined only when no two
    elements are equivalent under [less], which is the case at every call
    site of this package (lemma [sort_facts.Slice_unique]).  The function
    below is the insertion sort the library runs on short slices. *)
Definition Slice (l : list A) : list A :=
  rev (fold_left (λ prefix x, insertLeft x prefix) l []).
End insertion.

(** [sort.Strings]. *)
Definition Strings (l : list string) : list string := Slice String.ltb l.

End sort.

Module bufio.

Definition newline : string := String "010"%char EmptyString.
Definition cr : string := String "013"%char EmptyString.

(** [dropCR] removes one trailing carriage return. *)
Definition dropCR (s : string) : string := strings.TrimSuffix s cr.

(** [MaxScanTokenSize], the largest size the buffer of a [Scanner] grows
    to. *)
Definition MaxScanTokenSize : Z := 65536.

(** The scanner finds the end of a line when the line and its newline are
    in the full buffer, and takes what remains at the end of the input as a
    line when the buffer is not full: in both cases, when the line (with its
    carriage return, if any) has fewer than [MaxScanTokenSize] bytes. *)
Definition fits (line : string) : bool :=
  (Z.of_nat (String.length line) <? MaxScanTokenSize)%Z.

(** The tokens [Scan] delivers on [data] with the split function
    [ScanLines]: the text between newlines, each without a trailing carriage
    return; a final line without a newline counts when it is not empty.
    [Scan] stops at the first line that does not fit the buffer. *)
Fixpoint scanLines (fuel : nat) (data : string) : list string :=
  match fuel with
  | O => []
  | S fuel =>
      match strings.Cut data newline with
      | Some (line, rest) =>
          if fits line then dropCR line :: scanLines fuel rest else []
      | None => match data with
                | EmptyString => []
                | _ => if fits data then [dropCR data] else []
                end
      end
  end.

(** Whether [Scan] stopped at a line that does not fit the buffer: the
    scanner's error is then [ErrTooLong]. *)
Fixpoint tooLong (fuel : nat) (data : string) : bool :=
  match fuel with
  | O => false
  | S fuel =>
      match strings.Cut data newline with
      | Some (line, rest) => if fits line then tooLong fuel rest else true
      | None => negb (fits data)
      end
  end.

(** The lines of [data], as the loop [for sc.Scan()] sees them. *)
Definition Lines (data : string) : list string :=
  scanLines (S (String.length data)) data.

(** [sc.Err() == ErrTooLong] after that loop. *)
Definition TooLong (data : string) : bool :=
  tooLong (S (String.length data)) data.

End bufio.

(** ** Data model *)

(** [type Config map[string]string]. *)
Abbreviation Config := (gmap string string).

Record ConfigValue := { cv_Opt : string; cv_Val : string }.

Record ConfigChange := { cc_Opt : string; cc_OldVal : string; cc_NewVal : string }.

Record ConfigDiff := {
  InOld : list ConfigValue;
  Changes : list ConfigChange;
  InNew : list ConfigValue
}.

Global Instance ConfigValue_eq_dec : EqDecision ConfigValue.
Proof. solve_decision. Defined.
Global Instance ConfigChange_eq_dec : EqDecision ConfigChange.
Proof. solve_decision. Defined.
Global Instance ConfigDiff_eq_dec : EqDecision ConfigDiff.
Proof. solve_decision. Defined.

(** A run-time panic of the Go program. *)
Inductive panic :=
  | indexOutOfRange (index len : nat).

(** What a call does: it returns, or it panics. *)
Inductive run (A : Type) :=
  | Returns (a : A)
  | Panics (p : panic).
Global Arguments Returns {A} a.
Global Arguments Panics {A} p.

Definition run_bind {A B} (r : run A) (k : A → run B) : run B :=
  match r with
  | Returns a => k a
  | Panics p => Panics p
  end.

(** [tokens[i]] on a slice. *)
Definition index {A} (tokens : list A) (i : nat) : run A :=
  match tokens !! i with
  | Some x => Returns x
  | None => Panics (indexOutOfRange i (length tokens))
  end.

(** ** The parser *)

(** [parseConfigLine]: the option and the value of a line, or two empty
    strings for a line that holds none. *)
Definition parseConfigLine (line : string) : run (string * string) :=
  let line := strings.TrimSpace line in
  if strings.HasPrefix line "CONFIG_" then
    let line := strings.TrimPrefix line "CONFIG_" in
    let tokens := strings.Split line "=" in
    run_bind (index tokens 0) (λ opt,
    run_bind (index tokens 1) (λ val,
    Returns (opt, val)))
  else if strings.HasSuffix line " is not set" then
    let line := strings.TrimSuffix line " is not set" in
    let line := strings.TrimPrefix line "# CONFIG_" in
    Returns (line, "n")
  else Returns ("", "").

(** The errors of readers and writers, and [bufio.ErrTooLong], the error of
    a scanner whose buffer is full with no line in it. *)
Inductive ioError := readError | writeError | ErrTooLong.

(** An [io.Reader]: the bytes it delivers, and the error that ends the
    stream, [None] for [io.EOF]. *)

Record Reader := { r_data : string; r_err : option ioError }.

(** [strings.NewReader]. *)
Definition NewReader (s : string) : Reader := {| r_data := s; r_err := None |}.

(** The loop of [ParseConfig] over the lines the scanner returns. *)
Fixpoint parseLines (lines : list string) (cfg : Config) : run Config :=
  match lines with
  | [] => Returns cfg
  | text :: lines =>
      run_bind (parseConfigLine text) (λ '(opt, val),
      parseLines lines (if String.eqb opt "" then cfg else <[opt := val]> cfg))
  end.

(** [sc.Err()] after the loop: [ErrTooLong] when the scanner stopped at a
    line that does not fit its buffer, which it finds before it reaches the
    end of the stream; otherwise the error of the reader, nil for
    [io.EOF]. *)
Definition Scanner_Err (r : Reader) : option ioError :=
  if bufio.TooLong (r_data r) then Some ErrTooLong else r_err r.

(** [ParseConfig] returns [(cfg, nil)], here [inr cfg], or [(nil, err)],
    here [inl err].  The scanner hands out every line it has read before it
    reports an error. *)
Definition ParseConfig (r : Reader) : run (ioError + Config) :=
  run_bind (parseLines (bufio.Lines (r_data r)) ∅) (λ cfg,
  match Scanner_Err r with
  | Some err => Returns (inl err)
  | None => Returns (inr cfg)
  end).

(** ** Equality of configurations *)

(** Go leaves the order in which [range] visits a map unspecified.  A loop
    over a map is a fold over [map_to_list]; wherever the order could
    matter, the function takes the order of the visit as an argument and a
    lemma shows that the result does not depend on it. *)

(** [containedIn]: every option of [cfg] is in [other], with the same
    value. *)
Definition containedIn (cfg other : Config) : bool :=
  forallb
    (λ '(opt, val),
       match other !! opt with
       | Some otherval => String.eqb val otherval
       | None => false
       end)
    (map_to_list cfg).

Definition Equal (cfg other : Config) : bool :=
  containedIn cfg other && containedIn other cfg.

(** ** The diff engine *)

(** [ConfigDiff.sort].  The method has a value receiver, but the slices of
    the copy share their arrays with the caller's: the caller's diff is
    sorted. *)
Definition sortDiff (diff : ConfigDiff) : ConfigDiff :=
  {| InOld := sort.Slice (λ x y, String.ltb (cv_Opt x) (cv_Opt y)) (InOld diff);
     Changes := sort.Slice (λ x y, String.ltb (cc_Opt x) (cc_Opt y)) (Changes diff);
     InNew := sort.Slice (λ x y, String.ltb (cv_Opt x) (cv_Opt y)) (InNew diff) |}.

(** The body of the loop over [old]. *)
Definition diffOld (new : Config) (diff : ConfigDiff) (kv : string * string) :
    ConfigDiff :=
  let '(opt, oldval) := kv in
  match new !! opt with
  | None =>
      {| InOld := InOld diff ++ [{| cv_Opt := opt; cv_Val := oldval |}];
         Changes := Changes diff;
         InNew := InNew diff |}
  | Some newval =>
      if bool_decide (oldval ≠ newval) then
        {| InOld := InOld diff;
           Changes := Changes diff ++
             [{| cc_Opt := opt; cc_OldVal := oldval; cc_NewVal := newval |}];
           InNew := InNew diff |}
      else diff
  end.

(** The body of the loop over [new]. *)
Definition diffNew (old : Config) (diff : ConfigDiff) (kv : string * string) :
    ConfigDiff :=
  let '(opt, newval) := kv in
  match old !! opt with
  | None =>
      {| InOld := InOld diff;
         Changes := Changes diff;
         InNew := InNew diff ++ [{| cv_Opt := opt; cv_Val := newval |}] |}
  | Some _ => diff
  end.

(** [DiffConfig], with the orders [olds] and [news] in which the two loops
    visit [old] and [new]. *)
Definition DiffConfigIn (olds news : list (string * string)) (old new : Config) :
    ConfigDiff :=
  let diff := {| InOld := []; Changes := []; InNew := [] |} in
  let diff := fold_left (diffOld new) olds diff in
  let diff := fold_left (diffNew old) news diff in
  sortDiff diff.

Definition DiffConfig (old new : Config) : ConfigDiff :=
  DiffConfigIn (map_to_list old) (map_to_list new) old new.

(** ** The diff applier *)

Inductive ApplyDiffError :=
  | invalidOldValueError (cv : ConfigValue)
  | invalidChangeError (cc : ConfigChange)
  | mismatchedChangeError (cc : ConfigChange) (oldval : string)
  | invalidNewValueError (cv : ConfigValue).

(** The first loop of [ApplyDiff] fills [new] with the options of [cfg], in
    the order [opts] of the visit. *)
Definition copyInto (opts : list (string * string)) (new : Config) : Config :=
  fold_left (λ (new : Config) kv, <[kv.1 := kv.2]> new) opts new.

Definition copyConfig (cfg : Config) : Config := copyInto (map_to_list cfg) ∅.

Fixpoint applyInOld (cfg : Config) (inOld : list ConfigValue) (new : Config) :
    ApplyDiffError + Config :=
  match inOld with
  | [] => inr new
  | cv :: inOld =>
      match cfg !! cv_Opt cv with
      | None => inl (invalidOldValueError cv)
      | Some _ => applyInOld cfg inOld (delete (cv_Opt cv) new)
      end
  end.

Fixpoint applyChanges (cfg : Config) (changes : list ConfigChange) (new : Config) :
    ApplyDiffError + Config :=
  match changes with
  | [] => inr new
  | cc :: changes =>
      match cfg !! cc_Opt cc with
      | None => inl (invalidChangeError cc)
      | Some oldval =>
          if bool_decide (oldval ≠ cc_OldVal cc)
          then inl (mismatchedChangeError cc oldval)
          else applyChanges cfg changes (<[cc_Opt cc := cc_NewVal cc]> new)
      end
  end.

Fixpoint applyInNew (cfg : Config) (inNew : list ConfigValue) (new : Config) :
    ApplyDiffError + Config :=
  match inNew with
  | [] => inr new
  | cv :: inNew =>
      match cfg !! cv_Opt cv with
      | Some _ => inl (invalidNewValueError cv)
      | None => applyInNew cfg inNew (<[cv_Opt cv := cv_Val cv]> new)
      end
  end.

(** [ApplyDiff] returns [(new, nil)], here [inr new], or [(nil, err)], here
    [inl err].  It only reads [cfg]: every write goes to the map it made. *)
Definition ApplyDiff (cfg : Config) (diff : ConfigDiff) : ApplyDiffError + Config :=
  let new := copyConfig cfg in
  match applyInOld cfg (InOld diff) new with
  | inl err => inl err
  | inr new =>
      match applyChanges cfg (Changes diff) new with
      | inl err => inl err
      | inr new => applyInNew cfg (InNew diff) new
      end
  end.

(** ** [ApplyDiff] on map objects

    A Go map value is nil or the address of a map object, and [new[opt] =
    val] and [delete(new, opt)] update the object in place.  [Heap.ApplyDiff]
    is [ApplyDiff] with the objects explicit: the question it answers, and
    the value model cannot ask, is whether a call changes the map it was
    given. *)

Module Heap.

Abbreviation Heap := (gmap nat Config).

(** [None] is the nil map. *)
Abbreviation mapref := (option nat).

(** Reading a nil map finds no option. *)
Definition deref (h : Heap) (r : mapref) : Config :=
  match r with
  | Some l => default ∅ (h !! l)
  | None => ∅
  end.

Definition allocated (h : Heap) (r : mapref) : Prop :=
  match r with
  | Some l => is_Some (h !! l)
  | None => True
  end.

Global Instance allocated_dec h r : Decision (allocated h r).
Proof. destruct r; apply _. Defined.

(** [make(Config, n)]: a new, empty object at an unused address. *)
Definition make (h : Heap) : nat * Heap :=
  let l := fresh (dom h) in (l, <[l := ∅]> h).

Definition copyInto (opts : list (string * string)) (new : nat) (h : Heap) : Heap :=
  fold_left (λ (h : Heap) kv, alter (insert kv.1 kv.2) new h) opts h.

Fixpoint applyInOld (cfg : mapref) (inOld : list ConfigValue) (new : nat) (h : Heap) :
    Heap * option ApplyDiffError :=
  match inOld with
  | [] => (h, None)
  | cv :: inOld =>
      match deref h cfg !! cv_Opt cv with
      | None => (h, Some (invalidOldValueError cv))
      | Some _ => applyInOld cfg inOld new (alter (delete (cv_Opt cv)) new h)
      end
  end.

Fixpoint applyChanges (cfg : mapref) (changes : list ConfigChange) (new : nat)
    (h : Heap) : Heap * option ApplyDiffError :=
  match changes with
  | [] => (h, None)
  | cc :: changes =>
      match deref h cfg !! cc_Opt cc with
      | None => (h, Some (invalidChangeError cc))
      | Some oldval =>
          if bool_decide (oldval ≠ cc_OldVal cc)
          then (h, Some (mismatchedChangeError cc oldval))
          else applyChanges cfg changes new
                 (alter (insert (cc_Opt cc) (cc_NewVal cc)) new h)
      end
  end.

Fixpoint applyInNew (cfg : mapref) (inNew : list ConfigValue) (new : nat) (h : Heap) :
    Heap * option ApplyDiffError :=
  match inNew with
  | [] => (h, None)
  | cv :: inNew =>
      match deref h cfg !! cv_Opt cv with
      | Some _ => (h, Some (invalidNewValueError cv))
      | None => applyInNew cfg inNew new
                  (alter (insert (cv_Opt cv) (cv_Val cv)) new h)
      end
  end.

(** The heap after the call, and the pair [(Config, error)] it returns. *)
Definition ApplyDiff (h : Heap) (cfg : mapref) (diff : ConfigDiff) :
    Heap * (mapref * option ApplyDiffError) :=
  let '(new, h) := make h in
  let h := copyInto (map_to_list (deref h cfg)) new h in
  match applyInOld cfg (InOld diff) new h with
  | (h, Some err) => (h, (None, Some err))
  | (h, None) =>
      match applyChanges cfg (Changes diff) new h with
      | (h, Some err) => (h, (None, Some err))
      | (h, None) =>
          match applyInNew cfg (InNew diff) new h with
          | (h, Some err) => (h, (None, Some err))
          | (h, None) => (h, (Some new, None))
          end
      end
  end.

(** [h] is [h0] with one more object, [m] at [new]. *)
Definition extends (h0 : Heap) (new : nat) (m : Config) (h : Heap) : Prop :=
  h0 !! new = None ∧ h = <[new := m]> h0.

End Heap.

(** ** The serializer *)

(** An [io.Writer]: [Write] takes the state of the writer and the bytes,
    and returns the new state, the number of bytes written and the error. *)
Class Writer (W : Type) := Write : W → string → W * (Z * option ioError).

(** A [bytes.Buffer] appends and never fails. *)
Global Instance Buffer_Writer : Writer string :=
  λ buf p, (buf +:+ p, (Z.of_nat (String.length p), None)).

(** Conversion to, and arithmetic in, [int64]. *)
Definition int64 (z : Z) : Z := ((z + 2 ^ 63) mod 2 ^ 64 - 2 ^ 63)%Z.

Record configWriter (W : Type) := {
  cw_W : W;
  cw_N : Z;
  cw_Err : option ioError (* sticky *)
}.
Global Arguments cw_W {W} _.
Global Arguments cw_N {W} _.
Global Arguments cw_Err {W} _.

(** [fmt.Fprintf] formats and then calls [Write] once; [formatted] is the
    formatted text. *)
Definition Fprintf `{Writer W} (w : W) (formatted : string) :
    W * (Z * option ioError) :=
  Write w formatted.

Definition WriteLine `{Writer W} (cfgw : configWriter W) (option value : string) :
    configWriter W :=
  match cw_Err cfgw with
  | Some _ => cfgw
  | None =>
      let '(w, (n, err)) :=
        if String.eqb value "n"
        then Fprintf (cw_W cfgw) ("# CONFIG_" +:+ option +:+ " is not set" +:+ bufio.newline)
        else Fprintf (cw_W cfgw) ("CONFIG_" +:+ option +:+ "=" +:+ value +:+ bufio.newline)
      in
      {| cw_W := w; cw_N := int64 (cw_N cfgw + int64 n); cw_Err := err |}
  end.

(** [cfg[opt]]: the value, or the empty string when [opt] is absent. *)
Definition valueOf (cfg : Config) (opt : string) : string := default "" (cfg !! opt).

(** [Config.WriteTo], with the order [opts] in which the loop that collects
    the option names visits [cfg].  It returns the writer, the byte count
    and the error. *)
Definition WriteToIn `{Writer W} (opts : list string) (cfg : Config) (w : W) :
    W * (Z * option ioError) :=
  let opts := sort.Strings opts in
  let cfgw := {| cw_W := w; cw_N := 0; cw_Err := None |} in
  let cfgw := fold_left (λ cfgw opt, WriteLine cfgw opt (valueOf cfg opt)) opts cfgw in
  (cw_W cfgw, (cw_N cfgw, cw_Err cfgw)).

Definition WriteTo `{Writer W} (cfg : Config) (w : W) : W * (Z * option ioError) :=
  WriteToIn ((map_to_list cfg).*1) cfg w.

(** ** The diff serializer *)

(** [ConfigValue.String]: [fmt.Sprintf("%s %s", cv.Opt, cv.Val)]. *)
Definition ConfigValue_String (cv : ConfigValue) : string :=
  cv_Opt cv +:+ " " +:+ cv_Val cv.

(** [ConfigChange.String]:
    [fmt.Sprintf("%s %s -> %s", cc.Opt, cc.OldVal, cc.NewVal)]. *)
Definition ConfigChange_String (cc : ConfigChange) : string :=
  cc_Opt cc +:+ " " +:+ cc_OldVal cc +:+ " -> " +:+ cc_NewVal cc.

Record configDiffWriter (W : Type) := {
  cdw_W : W;
  cdw_N : Z;
  cdw_Err : option ioError (* sticky *)
}.
Global Arguments cdw_W {W} _.
Global Arguments cdw_N {W} _.
Global Arguments cdw_Err {W} _.

(** The verb [%s] prints a value with a [String] method through it. *)
Definition WriteOld `{Writer W} (cfgdw : configDiffWriter W) (cv : ConfigValue) :
    configDiffWriter W :=
  match cdw_Err cfgdw with
  | Some _ => cfgdw
  | None =>
      let '(w, (n, err)) :=
        Fprintf (cdw_W cfgdw) ("-" +:+ ConfigValue_String cv +:+ bufio.newline) in
      {| cdw_W := w; cdw_N := int64 (cdw_N cfgdw + int64 n); cdw_Err := err |}
  end.

Definition WriteChange `{Writer W} (cfgdw : configDiffWriter W) (cc : ConfigChange) :
    configDiffWriter W :=
  match cdw_Err cfgdw with
  | Some _ => cfgdw
  | None =>
      let '(w, (n, err)) :=
        Fprintf (cdw_W cfgdw) (" " +:+ ConfigChange_String cc +:+ bufio.newline) in
      {| cdw_W := w; cdw_N := int64 (cdw_N cfgdw + int64 n); cdw_Err := err |}
  end.

Definition WriteNew `{Writer W} (cfgdw : configDiffWriter W) (cv : ConfigValue) :
    configDiffWriter W :=
  match cdw_Err cfgdw with
  | Some _ => cfgdw
  | None =>
      let '(w, (n, err)) :=
        Fprintf (cdw_W cfgdw) ("+" +:+ ConfigValue_String cv +:+ bufio.newline) in
      {| cdw_W := w; cdw_N := int64 (cdw_N cfgdw + int64 n); cdw_Err := err |}
  end.

(** [ConfigDiff.WriteTo]: the writer, the byte count and the error. *)
Definition ConfigDiff_WriteTo `{Writer W} (diff : ConfigDiff) (w : W) :
    W * (Z * option ioError) :=
  let cfgdw := {| cdw_W := w; cdw_N := 0; cdw_Err := None |} in
  let cfgdw := fold_left WriteOld (InOld diff) cfgdw in
  let cfgdw := fold_left WriteChange (Changes diff) cfgdw in
  let cfgdw := fold_left WriteNew (InNew diff) cfgdw in
  (cdw_W cfgdw, (cdw_N cfgdw, cdw_Err cfgdw)).

(** * Specification

    The vocabulary of the statements below. *)

(** ** Byte order on strings *)

(** [s1] comes before [s2] in lexicographic byte order: it is a proper
    prefix of [s2], or the two differ first at a byte that is smaller in
    [s1].  This is Go's [<] on strings, and it is what [String.ltb]
    computes (lemma [StringOrder.ltb_lexicographic]). *)
Definition lexicographic (s1 s2 : string) : Prop :=
  (∃ c r, s2 = s1 +:+ String c r) ∨
  (∃ p c1 r1 c2 r2, s1 = p +:+ String c1 r1 ∧ s2 = p +:+ String c2 r2 ∧
     (nat_of_ascii c1 < nat_of_ascii c2)%nat).

(** A sequence in strictly ascending byte order of the keys. *)
Definition sortedBy {A} (key : A → string) : list A → Prop :=
  StronglySorted (λ x y, lexicographic (key x) (key y)).

(** ** Sorting by a string key *)

(** The comparison the package passes to [sort.Slice]. *)
Definition lessBy {A} (key : A → string) (x y : A) : bool :=
  String.ltb (key x) (key y).

(** Strictly ascending keys, as the comparison sees them. *)
Definition ascendingBy {A} (key : A → string) : list A → Prop :=
  StronglySorted (λ x y, lessBy key x y = true).

(** Strictly descending keys: the sorted prefix of the insertion sort, in
    reverse. *)
Definition descendingBy {A} (key : A → string) : list A → Prop :=
  StronglySorted (λ x y, lessBy key y x = true).

Abbreviation byOpt := (ascendingBy cv_Opt).
Abbreviation byChangeOpt := (ascendingBy cc_Opt).

Abbreviation ascendingStrings := (StronglySorted (λ a b : string, String.ltb a b = true)).

(** ** The parser *)

(** [s] has no [=]. *)
Definition noEquals (s : string) : Prop := "="%char ∉ list_ascii_of_string s.

(** ** The diff engine *)

(** What the loops of [DiffConfig] append for one option. *)
Definition onlyIn (other : Config) (kv : string * string) : option ConfigValue :=
  match other !! kv.1 with
  | None => Some {| cv_Opt := kv.1; cv_Val := kv.2 |}
  | Some _ => None
  end.

Definition changedIn (new : Config) (kv : string * string) : option ConfigChange :=
  match new !! kv.1 with
  | Some newval =>
      if bool_decide (kv.2 ≠ newval)
      then Some {| cc_Opt := kv.1; cc_OldVal := kv.2; cc_NewVal := newval |}
      else None
  | None => None
  end.

Definition emptyDiff : ConfigDiff := {| InOld := []; Changes := []; InNew := [] |}.

(** A change record read in the other direction. *)
Definition swapChange (cc : ConfigChange) : ConfigChange :=
  {| cc_Opt := cc_Opt cc; cc_OldVal := cc_NewVal cc; cc_NewVal := cc_OldVal cc |}.

(** ** The diff applier *)

(** The map the three phases build when every check passes. *)
Definition deleteAll (inOld : list ConfigValue) (new : Config) : Config :=
  fold_left (λ (new : Config) cv, delete (cv_Opt cv) new) inOld new.

Definition newValue (cc : ConfigChange) : string * string := (cc_Opt cc, cc_NewVal cc).
Definition optValue (cv : ConfigValue) : string * string := (cv_Opt cv, cv_Val cv).

Definition patched (cfg : Config) (diff : ConfigDiff) : Config :=
  copyInto (optValue <$> InNew diff)
    (copyInto (newValue <$> Changes diff) (deleteAll (InOld diff) cfg)).

(** The checks, in the order [ApplyDiff] makes them: the first entry that
    fails its check decides the error. *)
Definition absent (cfg : Config) (cv : ConfigValue) : bool :=
  bool_decide (cfg !! cv_Opt cv = None).

Definition unmatched (cfg : Config) (cc : ConfigChange) : bool :=
  bool_decide (cfg !! cc_Opt cc ≠ Some (cc_OldVal cc)).

Definition present (cfg : Config) (cv : ConfigValue) : bool :=
  bool_decide (is_Some (cfg !! cv_Opt cv)).

Definition changeError (cfg : Config) (cc : ConfigChange) : ApplyDiffError :=
  match cfg !! cc_Opt cc with
  | None => invalidChangeError cc
  | Some oldval => mismatchedChangeError cc oldval
  end.

Definition firstError (cfg : Config) (diff : ConfigDiff) : option ApplyDiffError :=
  match List.find (absent cfg) (InOld diff) with
  | Some cv => Some (invalidOldValueError cv)
  | None =>
      match List.find (unmatched cfg) (Changes diff) with
      | Some cc => Some (changeError cfg cc)
      | None =>
          match List.find (present cfg) (InNew diff) with
          | Some cv => Some (invalidNewValueError cv)
          | None => None
          end
      end
  end.

(** ** Diffs consistent with a configuration *)

(** [diff] is consistent with [A] when it obeys the rules [DiffConfig]
    obeys: the three sequences have strictly ascending option names, [InOld]
    and [Changes] record the values [A] holds, no change record has equal
    old and new values, the options of [InNew] are absent from [A], and no
    option is both removed and changed.  Lemma [consistent_iff_DiffConfig]
    shows that these are exactly the diffs [DiffConfig] can return for [A]. *)
Definition consistent (A : Config) (diff : ConfigDiff) : Prop :=
  byOpt (InOld diff) ∧ byChangeOpt (Changes diff) ∧ byOpt (InNew diff) ∧
  Forall (λ cv, A !! cv_Opt cv = Some (cv_Val cv)) (InOld diff) ∧
  Forall (λ cc, A !! cc_Opt cc = Some (cc_OldVal cc) ∧
                cc_OldVal cc ≠ cc_NewVal cc) (Changes diff) ∧
  Forall (λ cv, A !! cv_Opt cv = None) (InNew diff) ∧
  Forall (λ cv, cv_Opt cv ∉ cc_Opt <$> Changes diff) (InOld diff).

Global Instance consistent_dec A diff : Decision (consistent A diff).
Proof. unfold consistent, ascendingBy. apply _. Defined.

(** ** Which error [ApplyDiff] returns *)

(** [x] is the first element of [l] with the property [bad]. *)
Definition firstWith {X} (bad : X → Prop) (l : list X) (x : X) : Prop :=
  ∃ l1 l2, l = l1 ++ x :: l2 ∧ Forall (λ y, ¬ bad y) l1 ∧ bad x.

(** The checks of the first two phases. *)
Definition InOld_present (cfg : Config) (diff : ConfigDiff) : Prop :=
  ∀ cv, cv ∈ InOld diff → is_Some (cfg !! cv_Opt cv).

Definition Changes_match (cfg : Config) (diff : ConfigDiff) : Prop :=
  ∀ cc, cc ∈ Changes diff → cfg !! cc_Opt cc = Some (cc_OldVal cc).

(** [cc] is the first entry of [Changes] that fails its check. *)
Definition firstBadChange (cfg : Config) (diff : ConfigDiff) :
    ConfigChange → Prop :=
  firstWith (λ cc, cfg !! cc_Opt cc ≠ Some (cc_OldVal cc)) (Changes diff).

(** [cv] is the first entry of [InOld] whose option is absent from [cfg]. *)
Definition firstAbsentOld (cfg : Config) (diff : ConfigDiff) :
    ConfigValue → Prop :=
  firstWith (λ cv, cfg !! cv_Opt cv = None) (InOld diff).

(** [cv] is the first entry of [InNew] whose option is present in [cfg]. *)
Definition firstPresentNew (cfg : Config) (diff : ConfigDiff) :
    ConfigValue → Prop :=
  firstWith (λ cv, is_Some (cfg !! cv_Opt cv)) (InNew diff).

(** The outcome [r] of a loop on the heap, against its outcome [v] on
    values: the same error or none, and the heap is [h0] with one more
    object at [new], which holds the map the loop on values has built. *)
Definition simulates (h0 : Heap.Heap) (new : nat)
    (r : Heap.Heap * option ApplyDiffError) (v : ApplyDiffError + Config) : Prop :=
  match v with
  | inl err => r.2 = Some err ∧ ∃ m, Heap.extends h0 new m r.1
  | inr m => r.2 = None ∧ Heap.extends h0 new m r.1
  end.

(** ** The serializer *)

(** The line of one option, and the text of a list of lines. *)
Definition configLine (opt val : string) : string :=
  if decide (val = "n")
  then "# CONFIG_" +:+ opt +:+ " is not set" +:+ bufio.newline
  else "CONFIG_" +:+ opt +:+ "=" +:+ val +:+ bufio.newline.

Definition joinLines (lines : list string) : string :=
  fold_right String.append "" lines.

(** ** Test data *)

Definition quote : string := String "034"%char EmptyString.

(** Literals of the tests. *)
Definition cfgOf (l : list (string * string)) : Config := list_to_map l.

Definition mkValue (opt val : string) : ConfigValue :=
  {| cv_Opt := opt; cv_Val := val |}.

Definition mkChange (opt oldval newval : string) : ConfigChange :=
  {| cc_Opt := opt; cc_OldVal := oldval; cc_NewVal := newval |}.

(** The first case of the package's [applyDiffTests]. *)
Definition testCfg : Config :=
  <["X" := "x"]> (<["Y" := "y"]> (<["Z" := "z"]> ∅)).

Definition testDiff : ConfigDiff :=
  {| InOld := [{| cv_Opt := "X"; cv_Val := "x" |}];
     Changes := [{| cc_Opt := "Y"; cc_OldVal := "y"; cc_NewVal := "yy" |}];
     InNew := [{| cv_Opt := "T"; cv_Val := "t" |}] |}.

Definition testWant : Config :=
  <["Y" := "yy"]> (<["Z" := "z"]> (<["T" := "t"]> ∅)).

(** The second case of the package's [applyDiffTests], with a change and an
    addition that would fail their checks too. *)
Definition testBadDiff : ConfigDiff :=
  {| InOld := [{| cv_Opt := "T"; cv_Val := "t" |}];
     Changes := [{| cc_Opt := "T"; cc_OldVal := "t"; cc_NewVal := "tt" |}];
     InNew := [{| cv_Opt := "X"; cv_Val := "t" |}] |}.

Definition testHeap : Heap.Heap := {[ 0 := testCfg ]}.

(** ** Writers *)

(** Writing [lines] one after the other, up to and including the first
    write that fails: the writer, the number of bytes written, the error. *)
Fixpoint writeAll `{Writer W} (w : W) (lines : list string) :
    W * (Z * option ioError) :=
  match lines with
  | [] => (w, (0%Z, None))
  | line :: lines =>
      let '(w, (n, err)) := Write w line in
      match err with
      | Some _ => (w, (n, err))
      | None => let '(w, (m, err)) := writeAll w lines in (w, ((n + m)%Z, err))
      end
  end.

(** The lines of a configuration, for the option names [opts]. *)
Definition configLines (cfg : Config) (opts : list string) : list string :=
  (λ opt, configLine opt (valueOf cfg opt)) <$> opts.

(** The lines of a diff. *)
Definition oldLine (cv : ConfigValue) : string :=
  "-" +:+ cv_Opt cv +:+ " " +:+ cv_Val cv +:+ bufio.newline.

Definition changeLine (cc : ConfigChange) : string :=
  " " +:+ cc_Opt cc +:+ " " +:+ cc_OldVal cc +:+ " -> " +:+ cc_NewVal cc +:+
  bufio.newline.

Definition newLine (cv : ConfigValue) : string :=
  "+" +:+ cv_Opt cv +:+ " " +:+ cv_Val cv +:+ bufio.newline.

Definition diffLines (diff : ConfigDiff) : list string :=
  (oldLine <$> InOld diff) ++ (changeLine <$> Changes diff) ++
  (newLine <$> InNew diff).

(** ** Vocabulary of the parser and of the round trip *)

(** The byte [c] does not occur in [s]. *)
Definition noChar (c : ascii) (s : string) : Prop := c ∉ list_ascii_of_string s.

(** A line the parser cannot handle: [CONFIG_] and no [=] after it. *)
Definition malformed (line : string) : Prop :=
  strings.HasPrefix (strings.TrimSpace line) "CONFIG_" = true ∧
  noEquals (strings.TrimPrefix (strings.TrimSpace line) "CONFIG_").

(** [line] assigns the option [opt]. *)
Definition setsOption (line opt : string) : Prop :=
  ∃ val, parseConfigLine line = Returns (opt, val).

(** [s] ends with white space, as [strings.TrimSpace] sees it. *)
Definition endsWithSpace (s : string) : bool :=
  existsb (strings.HasSuffix s) strings.spaceRunes.

(** An option the serializer writes as a line the parser reads back: the
    name is not empty and has no newline; the line written for it, newline
    included, is not longer than the buffer of the scanner; the value is
    [n], or neither name nor value has a [=], and the value has no newline
    and no white space at its end. *)
Definition writableOption (opt val : string) : Prop :=
  opt ≠ "" ∧ noChar "010" opt ∧
  (Z.of_nat (String.length (configLine opt val)) ≤ bufio.MaxScanTokenSize)%Z ∧
  (val = "n" ∨
   (noEquals opt ∧ noEquals val ∧ noChar "010" val ∧ endsWithSpace val = false)).

Definition writable (cfg : Config) : Prop := map_Forall writableOption cfg.

Global Instance writableOption_dec opt val : Decision (writableOption opt val).
Proof. unfold writableOption, noEquals, noChar. apply _. Defined.

Global Instance writable_dec cfg : Decision (writable cfg).
Proof. unfold writable. apply _. Defined.

(** A line of the serializer without its newline. *)
Definition lineBody (opt val : string) : string :=
  if decide (val = "n")
  then "# CONFIG_" +:+ opt +:+ " is not set"
  else "CONFIG_" +:+ opt +:+ "=" +:+ val.


(** A line the scanner returns as it is. *)
Definition plainLine (b : string) : Prop :=
  noChar "010" b ∧ strings.HasSuffix b bufio.cr = false ∧ bufio.fits b = true.


(** [MaxScanTokenSize] bytes with no newline. *)
Definition longLine : string :=
  string_of_list_ascii (replicate (Z.to_nat bufio.MaxScanTokenSize) "x"%char).

(** The accumulator of [ConfigDiff.WriteTo]. *)
Definition mkDiffWriter {W} (w : W) (n : Z) (e : option ioError) : configDiffWriter W :=
  {| cdw_W := w; cdw_N := n; cdw_Err := e |}.

(** * Verification *)

(** ** Byte order on strings

    Go's [<] on strings compares byte by byte; this is [String.ltb]. *)

Module StringOrder.

Lemma ascii_compare_lt_trans a b c :
  Ascii.compare a b = Lt → Ascii.compare b c = Lt → Ascii.compare a c = Lt.
Proof.
  unfold Ascii.compare. rewrite !N.compare_lt_iff. apply N.lt_trans.
Qed.

Lemma ascii_compare_refl a : Ascii.compare a a = Eq.
Proof. unfold Ascii.compare. apply N.compare_refl. Qed.

Lemma compare_refl s : String.compare s s = Eq.
Proof.
  induction s as [|a s IH]; simpl; [done|].
  by rewrite ascii_compare_refl.
Qed.

Lemma compare_lt_trans s1 s2 s3 :
  String.compare s1 s2 = Lt → String.compare s2 s3 = Lt →
  String.compare s1 s3 = Lt.
Proof.
  revert s2 s3. induction s1 as [|a s1 IH]; intros [|b s2] [|c s3]; simpl;
    try done.
  destruct (Ascii.compare a b) eqn:Hab; try done.
  - apply Ascii.compare_eq_iff in Hab as ->.
    destruct (Ascii.compare b c); try done. apply IH.
  - destruct (Ascii.compare b c) eqn:Hbc; try done.
    + apply Ascii.compare_eq_iff in Hbc as <-. by rewrite Hab.
    + by rewrite (ascii_compare_lt_trans a b c).
Qed.

Lemma ltb_irrefl s : String.ltb s s = false.
Proof. unfold String.ltb. by rewrite compare_refl. Qed.

Lemma ltb_trans s1 s2 s3 :
  String.ltb s1 s2 = true → String.ltb s2 s3 = true → String.ltb s1 s3 = true.
Proof.
  unfold String.ltb. intros H1 H2.
  destruct (String.compare s1 s2) eqn:E1; try done.
  destruct (String.compare s2 s3) eqn:E2; try done.
  by rewrite (compare_lt_trans s1 s2 s3).
Qed.

Lemma ltb_trichotomy s1 s2 :
  String.ltb s1 s2 = false → s1 ≠ s2 → String.ltb s2 s1 = true.
Proof.
  unfold String.ltb. intros H Hne.
  rewrite String.compare_antisym.
  destruct (String.compare s1 s2) eqn:E; try done.
  by apply String.compare_eq_iff in E.
Qed.

Lemma append_cons a s t : String a s +:+ t = String a (s +:+ t).
Proof. reflexivity. Qed.

Lemma ascii_compare_nat a b :
  Ascii.compare a b = (nat_of_ascii a ?= nat_of_ascii b)%nat.
Proof.
  unfold Ascii.compare, nat_of_ascii.
  by rewrite Nat2N.inj_compare, !N2Nat.id.
Qed.

(** [String.ltb] is the lexicographic order on the bytes. *)
Lemma ltb_lexicographic s1 s2 : String.ltb s1 s2 = true ↔ lexicographic s1 s2.
Proof.
  unfold String.ltb, lexicographic. revert s2.
  induction s1 as [|a s1 IH]; intros [|b s2]; cbn [String.compare].
  - split; [done|]. intros [(c & r & Heq)|(p & c1 & r1 & c2 & r2 & Heq & _)].
    + done.
    + by destruct p.
  - split; [|done]. intros _. left. by exists b, s2.
  - split; [done|]. intros [(c & r & Heq)|(p & c1 & r1 & c2 & r2 & _ & Heq & _)].
    + done.
    + by destruct p.
  - rewrite ascii_compare_nat.
    destruct (Nat.compare_spec (nat_of_ascii a) (nat_of_ascii b)) as [Hab|Hab|Hab].
    + assert (a = b) as <-.
      { by rewrite <-(ascii_nat_embedding a), Hab, ascii_nat_embedding. }
      rewrite IH. split.
      * intros [(c & r & ->)|(p & c1 & r1 & c2 & r2 & -> & -> & Hlt)].
        -- left. by exists c, r.
        -- right. by exists (String a p), c1, r1, c2, r2.
      * intros [(c & r & Heq)|(p & c1 & r1 & c2 & r2 & H1 & H2 & Hlt)].
        -- left. exists c, r. rewrite append_cons in Heq. congruence.
        -- destruct p as [|x p]; rewrite ?append_cons in H1, H2.
           ++ change ("" +:+ ?s) with s in H1, H2. simplify_eq. lia.
           ++ right. exists p, c1, r1, c2, r2. simplify_eq. done.
    + split; [|done]. intros _. right. by exists "", a, s1, b, s2.
    + split; [done|].
      intros [(c & r & Heq)|(p & c1 & r1 & c2 & r2 & H1 & H2 & Hlt)].
      * rewrite append_cons in Heq. simplify_eq. lia.
      * destruct p as [|x p]; rewrite ?append_cons in H1, H2.
        -- change ("" +:+ ?s) with s in H1, H2. simplify_eq. lia.
        -- simplify_eq. lia.
Qed.

End StringOrder.

(** ** Sorting by a string key *)

Module sort_facts.
Section keyed.
Context {A : Type} (key : A → string).
Local Abbreviation less := (lessBy key).
Local Abbreviation ascending := (ascendingBy key).
Local Abbreviation descending := (descendingBy key).

Lemma insertLeft_Permutation x prefix :
  sort.insertLeft less x prefix ≡ₚ x :: prefix.
Proof.
  induction prefix as [|y rest IH]; simpl; [done|].
  destruct (less x y); [|done].
  rewrite IH. apply perm_swap.
Qed.

Lemma fold_insertLeft_Permutation l prefix :
  fold_left (λ p x, sort.insertLeft less x p) l prefix ≡ₚ l ++ prefix.
Proof.
  revert prefix. induction l as [|x l IH]; intros prefix; simpl; [done|].
  rewrite IH, insertLeft_Permutation. by rewrite Permutation_middle.
Qed.

Lemma Slice_Permutation l : sort.Slice less l ≡ₚ l.
Proof.
  unfold sort.Slice. rewrite <-Permutation_rev.
  rewrite fold_insertLeft_Permutation. by rewrite app_nil_r.
Qed.

Lemma insertLeft_descending x prefix :
  key x ∉ key <$> prefix → descending prefix →
  descending (sort.insertLeft less x prefix).
Proof.
  unfold descendingBy.
  induction prefix as [|y rest IH]; simpl; intros Hx Hs.
  { repeat constructor. }
  apply not_elem_of_cons in Hx as [Hxy Hx].
  apply StronglySorted_cons in Hs as [Hy Hs].
  destruct (less x y) eqn:E.
  - apply StronglySorted_cons. split; [|by apply IH].
    rewrite insertLeft_Permutation. by constructor.
  - assert (less y x = true) as Hyx
      by (by apply StringOrder.ltb_trichotomy).
    apply StronglySorted_cons. split; [|by apply StronglySorted_cons].
    constructor; [done|].
    eapply Forall_impl; [exact Hy|]. intros z Hz. simpl in Hz.
    by apply (StringOrder.ltb_trans _ (key y)).
Qed.

Lemma fold_insertLeft_descending l prefix :
  NoDup (key <$> (l ++ prefix)) → descending prefix →
  descending (fold_left (λ p x, sort.insertLeft less x p) l prefix).
Proof.
  revert prefix. induction l as [|x l IH]; intros prefix Hnd Hs; simpl; [done|].
  simpl in Hnd. apply NoDup_cons in Hnd as [Hx Hnd].
  apply IH.
  - rewrite insertLeft_Permutation, <-Permutation_middle.
    simpl. by apply NoDup_cons.
  - apply insertLeft_descending; [|done].
    rewrite fmap_app in Hx. set_solver.
Qed.

Lemma descending_rev l : descending l → ascending (rev l).
Proof.
  unfold descendingBy, ascendingBy.
  induction l as [|x l IH]; simpl; intros Hs; [constructor|].
  apply StronglySorted_cons in Hs as [Hx Hs].
  apply StronglySorted_app_2; [|by apply IH|repeat constructor].
  intros y z Hy Hz. apply list_elem_of_singleton in Hz as ->.
  rewrite Forall_forall in Hx. apply Hx.
  by apply list_elem_of_In, in_rev, list_elem_of_In.
Qed.

(** Sorting a slice with pairwise distinct keys. *)
Lemma Slice_ascending l : NoDup (key <$> l) → ascending (sort.Slice less l).
Proof.
  intros Hnd. apply descending_rev, fold_insertLeft_descending.
  - by rewrite app_nil_r.
  - constructor.
Qed.

Lemma ascending_NoDup l : ascending l → NoDup (key <$> l).
Proof.
  induction 1 as [|x l Hs IH Hx]; simpl; constructor; [|done].
  intros Hin. apply list_elem_of_fmap in Hin as (y & Hk & Hy).
  rewrite Forall_forall in Hx. specialize (Hx y Hy).
  unfold lessBy in Hx. rewrite Hk, StringOrder.ltb_irrefl in Hx. done.
Qed.

(** Ascending for the comparison is ascending in byte order. *)
Lemma ascending_sortedBy l : ascending l ↔ sortedBy key l.
Proof.
  unfold ascendingBy, sortedBy, lessBy.
  induction l as [|x l IH]; [split; constructor|].
  rewrite !StronglySorted_cons, IH.
  apply and_iff_compat_r, Forall_proper; [|done].
  intros y. apply StringOrder.ltb_lexicographic.
Qed.

(** Two slices with strictly ascending keys and the same elements are the
    same slice. *)
Lemma ascending_unique l1 l2 :
  ascending l1 → ascending l2 → (∀ x, x ∈ l1 ↔ x ∈ l2) → l1 = l2.
Proof.
  intros H1 H2 Hel.
  apply (StronglySorted_unique_strong (λ x y, less x y = true)); [|done..|].
  - intros x y _ _ Hxy Hyx. exfalso. unfold lessBy in *.
    pose proof (StringOrder.ltb_trans _ _ _ Hxy Hyx) as Hxx.
    by rewrite StringOrder.ltb_irrefl in Hxx.
  - apply NoDup_Permutation; [| |done].
    + eapply NoDup_fmap_1, ascending_NoDup, H1.
    + eapply NoDup_fmap_1, ascending_NoDup, H2.
Qed.

(** Whatever a sort without stability returns on a slice with pairwise
    distinct keys, namely a permutation in which no element is less than
    one before it, is what [sort.Slice] returns. *)
Lemma Slice_unique l l' :
  NoDup (key <$> l) → l' ≡ₚ l →
  StronglySorted (λ x y, less y x = false) l' →
  l' = sort.Slice less l.
Proof.
  intros Hnd Hp Hs.
  assert (NoDup (key <$> l')) as Hnd' by (by rewrite Hp).
  apply ascending_unique.
  - clear Hp. induction Hs as [|x l0 Hs IH Hx]; [constructor|].
    simpl in Hnd'. apply NoDup_cons in Hnd' as [Hxl Hnd'].
    constructor; [by apply IH|].
    rewrite Forall_forall in Hx |- *. intros y Hy.
    apply StringOrder.ltb_trichotomy; [by apply Hx|].
    intros Heq. apply Hxl. rewrite <-Heq. by apply list_elem_of_fmap_2.
  - by apply Slice_ascending.
  - intros x. by rewrite Slice_Permutation, Hp.
Qed.

(** The result does not depend on the order of the input. *)
Lemma Slice_order l1 l2 :
  NoDup (key <$> l1) → l1 ≡ₚ l2 → sort.Slice less l1 = sort.Slice less l2.
Proof.
  intros Hnd Hp. apply ascending_unique.
  - by apply Slice_ascending.
  - apply Slice_ascending. by rewrite <-Hp.
  - intros x. by rewrite !Slice_Permutation, Hp.
Qed.
End keyed.
End sort_facts.

(** ** The diff engine *)

Lemma fold_diffOld new l diff :
  fold_left (diffOld new) l diff =
  {| InOld := InOld diff ++ omap (onlyIn new) l;
     Changes := Changes diff ++ omap (changedIn new) l;
     InNew := InNew diff |}.
Proof.
  revert diff. induction l as [|[opt oldval] l IH]; intros [i c n]; simpl.
  { by rewrite !app_nil_r. }
  rewrite IH. unfold diffOld, onlyIn, changedIn. simpl.
  destruct (new !! opt) as [newval|]; simpl.
  - case_bool_decide; simpl; [|done]. by rewrite <-app_assoc.
  - by rewrite <-app_assoc.
Qed.

Lemma fold_diffNew old l diff :
  fold_left (diffNew old) l diff =
  {| InOld := InOld diff;
     Changes := Changes diff;
     InNew := InNew diff ++ omap (onlyIn old) l |}.
Proof.
  revert diff. induction l as [|[opt newval] l IH]; intros [i c n]; simpl.
  { by rewrite !app_nil_r. }
  rewrite IH. unfold diffNew, onlyIn. simpl.
  destruct (old !! opt); simpl; [done|]. by rewrite <-app_assoc.
Qed.

Lemma DiffConfigIn_eq olds news old new :
  DiffConfigIn olds news old new =
  {| InOld := sort.Slice (lessBy cv_Opt) (omap (onlyIn new) olds);
     Changes := sort.Slice (lessBy cc_Opt) (omap (changedIn new) olds);
     InNew := sort.Slice (lessBy cv_Opt) (omap (onlyIn old) news) |}.
Proof.
  unfold DiffConfigIn. by rewrite fold_diffOld, fold_diffNew.
Qed.

Lemma omap_keys_NoDup {B} (key : B → string) (f : string * string → option B)
    (l : list (string * string)) :
  (∀ kv y, f kv = Some y → key y = kv.1) →
  NoDup (l.*1) → NoDup (key <$> omap f l).
Proof.
  intros Hkey. induction l as [|kv l IH]; simpl; intros Hnd; [constructor|].
  apply NoDup_cons in Hnd as [Hkv Hnd].
  destruct (f kv) as [y|] eqn:E; simpl; [|by apply IH].
  apply NoDup_cons. split; [|by apply IH].
  intros Hin. apply Hkv.
  apply list_elem_of_fmap in Hin as (z & Hz & Hzin).
  apply list_elem_of_omap in Hzin as (kv' & Hin' & Hf).
  apply list_elem_of_fmap. exists kv'. split; [|done].
  by rewrite <-(Hkey _ _ E), Hz, (Hkey _ _ Hf).
Qed.

Lemma onlyIn_key other kv cv : onlyIn other kv = Some cv → cv_Opt cv = kv.1.
Proof. unfold onlyIn. destruct (other !! kv.1); naive_solver. Qed.

Lemma changedIn_key new kv cc : changedIn new kv = Some cc → cc_Opt cc = kv.1.
Proof.
  unfold changedIn. destruct (new !! kv.1); [|done].
  case_bool_decide; naive_solver.
Qed.

(** The order in which the two loops visit the maps does not show in the
    result. *)
Lemma DiffConfigIn_order olds news old new :
  olds ≡ₚ map_to_list old → news ≡ₚ map_to_list new →
  DiffConfigIn olds news old new = DiffConfig old new.
Proof.
  intros Ho Hn. unfold DiffConfig. rewrite !DiffConfigIn_eq.
  assert (NoDup (olds.*1)) by (rewrite Ho; apply NoDup_fst_map_to_list).
  assert (NoDup (news.*1)) by (rewrite Hn; apply NoDup_fst_map_to_list).
  f_equal; apply sort_facts.Slice_order;
    first [ by apply omap_keys_NoDup;
              [apply onlyIn_key || apply changedIn_key|]
          | by rewrite Ho | by rewrite Hn ].
Qed.

Lemma elem_of_InOld old new cv :
  cv ∈ InOld (DiffConfig old new) ↔
  old !! cv_Opt cv = Some (cv_Val cv) ∧ new !! cv_Opt cv = None.
Proof.
  unfold DiffConfig. rewrite DiffConfigIn_eq. simpl.
  rewrite sort_facts.Slice_Permutation, list_elem_of_omap. split.
  - intros ([opt val] & Hin & Hf). apply elem_of_map_to_list in Hin.
    unfold onlyIn in Hf. simpl in Hf.
    destruct (new !! opt) eqn:E; naive_solver.
  - intros [Ho Hn]. exists (cv_Opt cv, cv_Val cv). split.
    + by apply elem_of_map_to_list.
    + unfold onlyIn. simpl. rewrite Hn. by destruct cv.
Qed.

Lemma elem_of_InNew old new cv :
  cv ∈ InNew (DiffConfig old new) ↔
  new !! cv_Opt cv = Some (cv_Val cv) ∧ old !! cv_Opt cv = None.
Proof.
  unfold DiffConfig. rewrite DiffConfigIn_eq. simpl.
  rewrite sort_facts.Slice_Permutation, list_elem_of_omap. split.
  - intros ([opt val] & Hin & Hf). apply elem_of_map_to_list in Hin.
    unfold onlyIn in Hf. simpl in Hf.
    destruct (old !! opt) eqn:E; naive_solver.
  - intros [Hn Ho]. exists (cv_Opt cv, cv_Val cv). split.
    + by apply elem_of_map_to_list.
    + unfold onlyIn. simpl. rewrite Ho. by destruct cv.
Qed.

Lemma elem_of_Changes old new cc :
  cc ∈ Changes (DiffConfig old new) ↔
  old !! cc_Opt cc = Some (cc_OldVal cc) ∧
  new !! cc_Opt cc = Some (cc_NewVal cc) ∧
  cc_OldVal cc ≠ cc_NewVal cc.
Proof.
  unfold DiffConfig. rewrite DiffConfigIn_eq. simpl.
  rewrite sort_facts.Slice_Permutation, list_elem_of_omap. split.
  - intros ([opt val] & Hin & Hf). apply elem_of_map_to_list in Hin.
    unfold changedIn in Hf. simpl in Hf.
    destruct (new !! opt) eqn:E; [|done].
    case_bool_decide; naive_solver.
  - intros (Ho & Hn & Hne). exists (cc_Opt cc, cc_OldVal cc). split.
    + by apply elem_of_map_to_list.
    + unfold changedIn. simpl. rewrite Hn.
      rewrite bool_decide_eq_true_2 by done. by destruct cc.
Qed.

Lemma InOld_ascending old new : byOpt (InOld (DiffConfig old new)).
Proof.
  unfold DiffConfig. rewrite DiffConfigIn_eq. simpl.
  apply sort_facts.Slice_ascending, omap_keys_NoDup;
    [apply onlyIn_key | apply NoDup_fst_map_to_list].
Qed.

Lemma InNew_ascending old new : byOpt (InNew (DiffConfig old new)).
Proof.
  unfold DiffConfig. rewrite DiffConfigIn_eq. simpl.
  apply sort_facts.Slice_ascending, omap_keys_NoDup;
    [apply onlyIn_key | apply NoDup_fst_map_to_list].
Qed.

Lemma Changes_ascending old new : byChangeOpt (Changes (DiffConfig old new)).
Proof.
  unfold DiffConfig. rewrite DiffConfigIn_eq. simpl.
  apply sort_facts.Slice_ascending, omap_keys_NoDup;
    [apply changedIn_key | apply NoDup_fst_map_to_list].
Qed.

Lemma DiffConfig_self A : DiffConfig A A = emptyDiff.
Proof.
  assert (∀ cv, cv ∉ InOld (DiffConfig A A)) as Ho.
  { intros cv Hin. apply elem_of_InOld in Hin as [H1 H2]. congruence. }
  assert (∀ cc, cc ∉ Changes (DiffConfig A A)) as Hc.
  { intros cc Hin. apply elem_of_Changes in Hin as (H1 & H2 & H3). congruence. }
  assert (∀ cv, cv ∉ InNew (DiffConfig A A)) as Hn.
  { intros cv Hin. apply elem_of_InNew in Hin as [H1 H2]. congruence. }
  destruct (DiffConfig A A) as [i c n]. simpl in *. unfold emptyDiff.
  f_equal.
  - destruct i as [|cv ?]; [done|]. destruct (Ho cv). left.
  - destruct c as [|cc ?]; [done|]. destruct (Hc cc). left.
  - destruct n as [|cv ?]; [done|]. destruct (Hn cv). left.
Qed.

(** C8. Every diff [DiffConfig] returns has its three sequences in strictly
    ascending byte order of the option names, and every change record has
    an old value different from its new value: an option with the same
    value in both configurations has no record in any sequence, and the
    diff of a configuration with itself is empty. *)
Theorem DiffConfig_sorted_nonredundant (A B : Config) :
  sortedBy cv_Opt (InOld (DiffConfig A B)) ∧
  sortedBy cc_Opt (Changes (DiffConfig A B)) ∧
  sortedBy cv_Opt (InNew (DiffConfig A B)) ∧
  (∀ cc, cc ∈ Changes (DiffConfig A B) → cc_OldVal cc ≠ cc_NewVal cc) ∧
  (∀ opt val, A !! opt = Some val → B !! opt = Some val →
     (opt ∉ cv_Opt <$> InOld (DiffConfig A B)) ∧
     (opt ∉ cc_Opt <$> Changes (DiffConfig A B)) ∧
     (opt ∉ cv_Opt <$> InNew (DiffConfig A B))) ∧
  DiffConfig A A = emptyDiff.
Proof.
  split_and!.
  - apply sort_facts.ascending_sortedBy, InOld_ascending.
  - apply sort_facts.ascending_sortedBy, Changes_ascending.
  - apply sort_facts.ascending_sortedBy, InNew_ascending.
  - intros cc Hin. by apply elem_of_Changes in Hin as (_ & _ & Hne).
  - intros opt val HA HB. split_and!.
    + intros (cv & -> & Hin)%list_elem_of_fmap.
      apply elem_of_InOld in Hin as [_ Hn]. congruence.
    + intros (cc & -> & Hin)%list_elem_of_fmap.
      apply elem_of_Changes in Hin as (Ho & Hn & Hne). congruence.
    + intros (cv & -> & Hin)%list_elem_of_fmap.
      apply elem_of_InNew in Hin as [_ Hn]. congruence.
  - apply DiffConfig_self.
Qed.

Lemma swapChange_ascending l : byChangeOpt l → byChangeOpt (swapChange <$> l).
Proof.
  unfold ascendingBy.
  induction 1 as [|cc l Hs IH Hx]; simpl; constructor; [done|].
  apply Forall_fmap. eapply Forall_impl; [exact Hx|]. by intros [].
Qed.

Lemma Changes_swap A B :
  Changes (DiffConfig B A) = swapChange <$> Changes (DiffConfig A B).
Proof.
  apply (sort_facts.ascending_unique cc_Opt).
  - apply Changes_ascending.
  - apply swapChange_ascending, Changes_ascending.
  - intros cc. rewrite list_elem_of_fmap, elem_of_Changes. split.
    + intros (HB & HA & Hne). exists (swapChange cc). split.
      * by destruct cc.
      * apply elem_of_Changes. simpl. done.
    + intros (cc' & -> & Hin). apply elem_of_Changes in Hin. simpl.
      naive_solver.
Qed.

(** C3. The diff in the other direction has [InOld] and [InNew] exchanged,
    and at every index of [Changes] the same option with old and new value
    exchanged. *)
Theorem DiffConfig_symmetry (A B : Config) :
  InOld (DiffConfig A B) = InNew (DiffConfig B A) ∧
  InNew (DiffConfig A B) = InOld (DiffConfig B A) ∧
  ∀ i opt oldval newval,
    Changes (DiffConfig A B) !! i =
      Some {| cc_Opt := opt; cc_OldVal := oldval; cc_NewVal := newval |} →
    Changes (DiffConfig B A) !! i =
      Some {| cc_Opt := opt; cc_OldVal := newval; cc_NewVal := oldval |}.
Proof.
  split_and!.
  - unfold DiffConfig. by rewrite !DiffConfigIn_eq.
  - unfold DiffConfig. by rewrite !DiffConfigIn_eq.
  - intros i opt oldval newval Hi.
    by rewrite Changes_swap, list_lookup_fmap, Hi.
Qed.

(** ** Equality of configurations *)

Lemma containedIn_spec (cfg other : Config) :
  containedIn cfg other = true ↔ cfg ⊆ other.
Proof.
  unfold containedIn. rewrite forallb_forall, map_subseteq_spec. split.
  - intros H opt val Hin. apply elem_of_map_to_list, list_elem_of_In, H in Hin.
    destruct (other !! opt) as [otherval|]; [|done].
    by apply String.eqb_eq in Hin as ->.
  - intros H [opt val] Hin. apply list_elem_of_In, elem_of_map_to_list in Hin.
    rewrite (H opt val Hin). apply String.eqb_refl.
Qed.

(** [Equal] holds exactly of two maps with the same keys and values. *)
Lemma Equal_spec (cfg other : Config) : Equal cfg other = true ↔ cfg = other.
Proof.
  unfold Equal. rewrite andb_true_iff, !containedIn_spec. split.
  - intros [H1 H2]. by apply (anti_symm (⊆)).
  - by intros ->.
Qed.

(** ** The diff applier *)

Lemma copyInto_union opts new :
  NoDup (opts.*1) → copyInto opts new = list_to_map opts ∪ new.
Proof.
  unfold copyInto. revert new.
  induction opts as [|[opt val] opts IH]; intros new Hnd; simpl.
  { by rewrite (left_id_L ∅ (∪)). }
  apply NoDup_cons in Hnd as [Hopt Hnd].
  rewrite IH by done. rewrite <-insert_union_l. symmetry.
  apply insert_union_r. by apply not_elem_of_list_to_map_1.
Qed.

(** The copy is [cfg], in whatever order the loop visits it. *)
Lemma copyInto_order cfg opts : opts ≡ₚ map_to_list cfg → copyInto opts ∅ = cfg.
Proof.
  intros Hp. rewrite copyInto_union.
  - rewrite (right_id_L ∅ (∪)).
    trans (list_to_map (map_to_list cfg) : Config);
      [|apply list_to_map_to_list].
    apply list_to_map_proper; [|done].
    rewrite Hp. apply NoDup_fst_map_to_list.
  - rewrite Hp. apply NoDup_fst_map_to_list.
Qed.

Lemma copyConfig_eq cfg : copyConfig cfg = cfg.
Proof. by apply copyInto_order. Qed.

Lemma applyInOld_eq cfg inOld new :
  applyInOld cfg inOld new =
  match List.find (absent cfg) inOld with
  | Some cv => inl (invalidOldValueError cv)
  | None => inr (deleteAll inOld new)
  end.
Proof.
  revert new. induction inOld as [|cv l IH]; intros new; simpl; [done|].
  unfold absent at 1. destruct (cfg !! cv_Opt cv) eqn:E.
  - rewrite bool_decide_eq_false_2 by done. apply IH.
  - by rewrite bool_decide_eq_true_2.
Qed.

Lemma applyChanges_eq cfg changes new :
  applyChanges cfg changes new =
  match List.find (unmatched cfg) changes with
  | Some cc => inl (changeError cfg cc)
  | None => inr (copyInto (newValue <$> changes) new)
  end.
Proof.
  revert new. induction changes as [|cc l IH]; intros new; simpl; [done|].
  unfold unmatched at 1, changeError. destruct (cfg !! cc_Opt cc) as [v|] eqn:E.
  - case_bool_decide as Hv.
    + rewrite bool_decide_eq_true_2 by congruence. by rewrite E.
    + rewrite bool_decide_eq_false_2 by (intros Hne; apply Hne; congruence).
      apply IH.
  - rewrite bool_decide_eq_true_2 by done. by rewrite E.
Qed.

Lemma applyInNew_eq cfg inNew new :
  applyInNew cfg inNew new =
  match List.find (present cfg) inNew with
  | Some cv => inl (invalidNewValueError cv)
  | None => inr (copyInto (optValue <$> inNew) new)
  end.
Proof.
  revert new. induction inNew as [|cv l IH]; intros new; simpl; [done|].
  unfold present at 1. destruct (cfg !! cv_Opt cv) eqn:E.
  - by rewrite bool_decide_eq_true_2.
  - rewrite bool_decide_eq_false_2 by (by intros [? ?]). apply IH.
Qed.

(** [ApplyDiff] fails with the first error, and otherwise returns the
    patched configuration. *)
Lemma ApplyDiff_eq cfg diff :
  ApplyDiff cfg diff =
  match firstError cfg diff with
  | Some err => inl err
  | None => inr (patched cfg diff)
  end.
Proof.
  unfold ApplyDiff, firstError, patched.
  rewrite copyConfig_eq, applyInOld_eq.
  destruct (List.find (absent cfg) (InOld diff)); [done|].
  rewrite applyChanges_eq.
  destruct (List.find (unmatched cfg) (Changes diff)); [done|].
  rewrite applyInNew_eq.
  by destruct (List.find (present cfg) (InNew diff)).
Qed.

Lemma copyInto_lookup_notin opts new k :
  k ∉ opts.*1 → copyInto opts new !! k = new !! k.
Proof.
  unfold copyInto. revert new.
  induction opts as [|[opt val] opts IH]; intros new Hk; simpl; [done|].
  apply not_elem_of_cons in Hk as [Hne Hk]. simpl in Hne.
  rewrite IH by done. by rewrite lookup_insert_ne.
Qed.

Lemma copyInto_lookup_in opts new k v :
  NoDup (opts.*1) → (k, v) ∈ opts → copyInto opts new !! k = Some v.
Proof.
  intros Hnd Hin. rewrite copyInto_union by done.
  apply lookup_union_Some_l. by apply elem_of_list_to_map_1.
Qed.

Lemma deleteAll_lookup_notin inOld new k :
  k ∉ cv_Opt <$> inOld → deleteAll inOld new !! k = new !! k.
Proof.
  unfold deleteAll. revert new.
  induction inOld as [|cv l IH]; intros new Hk; simpl; [done|].
  apply not_elem_of_cons in Hk as [Hne Hk].
  rewrite IH by done. by rewrite lookup_delete_ne.
Qed.

Lemma deleteAll_lookup_in inOld new k :
  k ∈ cv_Opt <$> inOld → deleteAll inOld new !! k = None.
Proof.
  unfold deleteAll. revert new.
  induction inOld as [|cv l IH]; intros new Hk; simpl.
  { by apply elem_of_nil in Hk. }
  destruct (decide (k ∈ cv_Opt <$> l)) as [Hin|Hnotin]; [by apply IH|].
  apply elem_of_cons in Hk as [->|Hk]; [|done].
  fold (deleteAll l (delete (cv_Opt cv) new)).
  rewrite deleteAll_lookup_notin by done. apply lookup_delete_eq.
Qed.

Lemma fst_newValue changes : (newValue <$> changes).*1 = cc_Opt <$> changes.
Proof. rewrite <-list_fmap_compose. done. Qed.

Lemma fst_optValue values : (optValue <$> values).*1 = cv_Opt <$> values.
Proof. rewrite <-list_fmap_compose. done. Qed.

(** What the patched configuration holds, for a diff that names no option
    twice in [Changes] or in [InNew]. *)
Section patched.
Context (cfg : Config) (diff : ConfigDiff).
Hypothesis NoDup_Changes : NoDup (cc_Opt <$> Changes diff).
Hypothesis NoDup_InNew : NoDup (cv_Opt <$> InNew diff).

Lemma patched_InNew cv :
  cv ∈ InNew diff → patched cfg diff !! cv_Opt cv = Some (cv_Val cv).
Proof.
  intros Hin. unfold patched. apply copyInto_lookup_in.
  - by rewrite fst_optValue.
  - by apply (list_elem_of_fmap_2 optValue) in Hin.
Qed.

Lemma patched_Changes cc :
  cc ∈ Changes diff → cc_Opt cc ∉ cv_Opt <$> InNew diff →
  patched cfg diff !! cc_Opt cc = Some (cc_NewVal cc).
Proof.
  intros Hin Hnew. unfold patched.
  rewrite copyInto_lookup_notin by (by rewrite fst_optValue).
  apply copyInto_lookup_in.
  - by rewrite fst_newValue.
  - by apply (list_elem_of_fmap_2 newValue) in Hin.
Qed.

Lemma patched_InOld cv :
  cv ∈ InOld diff →
  cv_Opt cv ∉ cc_Opt <$> Changes diff → cv_Opt cv ∉ cv_Opt <$> InNew diff →
  patched cfg diff !! cv_Opt cv = None.
Proof.
  intros Hin Hchg Hnew. unfold patched.
  rewrite copyInto_lookup_notin by (by rewrite fst_optValue).
  rewrite copyInto_lookup_notin by (by rewrite fst_newValue).
  apply deleteAll_lookup_in. by apply list_elem_of_fmap_2.
Qed.

Lemma patched_other k :
  k ∉ cv_Opt <$> InOld diff → k ∉ cc_Opt <$> Changes diff →
  k ∉ cv_Opt <$> InNew diff →
  patched cfg diff !! k = cfg !! k.
Proof.
  intros Hold Hchg Hnew. unfold patched.
  rewrite copyInto_lookup_notin by (by rewrite fst_optValue).
  rewrite copyInto_lookup_notin by (by rewrite fst_newValue).
  by apply deleteAll_lookup_notin.
Qed.
End patched.

Lemma find_None_2 {X} (f : X → bool) (l : list X) :
  (∀ x, x ∈ l → f x = false) → List.find f l = None.
Proof.
  induction l as [|x l IH]; simpl; intros Hf; [done|].
  rewrite (Hf x) by left. apply IH. intros y Hy. apply Hf. by right.
Qed.

Lemma firstError_DiffConfig A B : firstError A (DiffConfig A B) = None.
Proof.
  unfold firstError.
  rewrite (find_None_2 (absent A)); [rewrite (find_None_2 (unmatched A));
    [rewrite (find_None_2 (present A)); [done|]|]|].
  - intros cv [Hn Ho]%elem_of_InNew. unfold present.
    apply bool_decide_eq_false_2. rewrite Ho. by intros [? ?].
  - intros cc (Ho & _)%elem_of_Changes. unfold unmatched.
    apply bool_decide_eq_false_2. by intros Hne.
  - intros cv [Ho _]%elem_of_InOld. unfold absent.
    apply bool_decide_eq_false_2. by rewrite Ho.
Qed.

Lemma patched_DiffConfig A B : patched A (DiffConfig A B) = B.
Proof.
  pose proof (sort_facts.ascending_NoDup _ _ (Changes_ascending A B)) as Hc.
  pose proof (sort_facts.ascending_NoDup _ _ (InNew_ascending A B)) as Hn.
  assert (∀ k, k ∈ cv_Opt <$> InOld (DiffConfig A B) →
               is_Some (A !! k) ∧ B !! k = None) as Hkold.
  { intros k (cv & -> & [Ho Hnone]%elem_of_InOld)%list_elem_of_fmap.
    by rewrite Ho. }
  assert (∀ k, k ∈ cc_Opt <$> Changes (DiffConfig A B) →
               is_Some (A !! k) ∧ is_Some (B !! k)) as Hkchg.
  { intros k (cc & -> & (Ho & Hnw & _)%elem_of_Changes)%list_elem_of_fmap.
    by rewrite Ho, Hnw. }
  assert (∀ k, k ∈ cv_Opt <$> InNew (DiffConfig A B) →
               A !! k = None ∧ is_Some (B !! k)) as Hknew.
  { intros k (cv & -> & [Hnw Ho]%elem_of_InNew)%list_elem_of_fmap.
    by rewrite Hnw. }
  apply map_eq. intros k.
  destruct (A !! k) as [a|] eqn:HA, (B !! k) as [b|] eqn:HB.
  - destruct (decide (a = b)) as [->|Hne].
    + rewrite patched_other, HA; [done|..].
      * intros [_ ?]%Hkold. congruence.
      * intros (cc & -> & (Ho & Hnw & ?)%elem_of_Changes)%list_elem_of_fmap.
        congruence.
      * intros [? _]%Hknew. congruence.
    + pose proof (patched_Changes A _ Hc
                    {| cc_Opt := k; cc_OldVal := a; cc_NewVal := b |}) as Hp.
      simpl in Hp. rewrite Hp; [done|..].
      * by apply elem_of_Changes.
      * intros [? _]%Hknew. congruence.
  - pose proof (patched_InOld A (DiffConfig A B)
                  {| cv_Opt := k; cv_Val := a |}) as Hp.
    simpl in Hp. rewrite Hp; [done|..].
    + by apply elem_of_InOld.
    + intros [_ [? ?]]%Hkchg. congruence.
    + intros [? _]%Hknew. congruence.
  - pose proof (patched_InNew A _ Hn {| cv_Opt := k; cv_Val := b |}) as Hp.
    simpl in Hp. rewrite Hp; [done|].
    by apply elem_of_InNew.
  - rewrite patched_other, HA; [done|..].
    + intros [[? ?] _]%Hkold. congruence.
    + intros [[? ?] _]%Hkchg. congruence.
    + intros [_ [? ?]]%Hknew. congruence.
Qed.

Lemma ApplyDiff_of_DiffConfig A B : ApplyDiff A (DiffConfig A B) = inr B.
Proof.
  by rewrite ApplyDiff_eq, firstError_DiffConfig, patched_DiffConfig.
Qed.

(** C1. Applying the diff from [A] to [B] on [A] succeeds, and the
    configuration it returns is equal to [B]: it is [B], and [Equal] says
    so. *)
Theorem ApplyDiff_DiffConfig (A B : Config) :
  ∃ Y, ApplyDiff A (DiffConfig A B) = inr Y ∧ Y = B ∧ Equal Y B = true.
Proof.
  exists B. split_and!; [apply ApplyDiff_of_DiffConfig|done|by apply Equal_spec].
Qed.

(** ** Diffs consistent with a configuration *)

Section consistent.
Context (A : Config) (diff : ConfigDiff).
Hypothesis Hcons : consistent A diff.

Local Lemma cons_InOld cv :
  cv ∈ InOld diff → A !! cv_Opt cv = Some (cv_Val cv).
Proof.
  destruct Hcons as (_ & _ & _ & H & _). rewrite Forall_forall in H. apply H.
Qed.

Local Lemma cons_Changes cc :
  cc ∈ Changes diff →
  A !! cc_Opt cc = Some (cc_OldVal cc) ∧ cc_OldVal cc ≠ cc_NewVal cc.
Proof.
  destruct Hcons as (_ & _ & _ & _ & H & _). rewrite Forall_forall in H.
  apply H.
Qed.

Local Lemma cons_InNew cv : cv ∈ InNew diff → A !! cv_Opt cv = None.
Proof.
  destruct Hcons as (_ & _ & _ & _ & _ & H & _). rewrite Forall_forall in H.
  apply H.
Qed.

Local Lemma cons_disjoint cv :
  cv ∈ InOld diff → cv_Opt cv ∉ cc_Opt <$> Changes diff.
Proof.
  destruct Hcons as (_ & _ & _ & _ & _ & _ & H). rewrite Forall_forall in H.
  apply H.
Qed.

Local Lemma cons_NoDup_Changes : NoDup (cc_Opt <$> Changes diff).
Proof. apply sort_facts.ascending_NoDup, Hcons. Qed.

Local Lemma cons_NoDup_InNew : NoDup (cv_Opt <$> InNew diff).
Proof. apply sort_facts.ascending_NoDup, Hcons. Qed.

Local Lemma cons_InOld_key k :
  k ∈ cv_Opt <$> InOld diff → is_Some (A !! k).
Proof.
  intros (cv & -> & Hin)%list_elem_of_fmap. by rewrite (cons_InOld cv).
Qed.

Local Lemma cons_Changes_key k :
  k ∈ cc_Opt <$> Changes diff → is_Some (A !! k).
Proof.
  intros (cc & -> & Hin)%list_elem_of_fmap.
  destruct (cons_Changes cc Hin) as [-> _]. done.
Qed.

Local Lemma cons_InNew_key k : k ∈ cv_Opt <$> InNew diff → A !! k = None.
Proof.
  intros (cv & -> & Hin)%list_elem_of_fmap. by apply cons_InNew.
Qed.

(** A consistent diff passes every check. *)
Lemma consistent_firstError : firstError A diff = None.
Proof.
  unfold firstError.
  rewrite (find_None_2 (absent A)); [rewrite (find_None_2 (unmatched A));
    [rewrite (find_None_2 (present A)); [done|]|]|].
  - intros cv Hin. unfold present. apply bool_decide_eq_false_2.
    rewrite (cons_InNew cv Hin). by intros [? ?].
  - intros cc Hin. unfold unmatched. apply bool_decide_eq_false_2.
    destruct (cons_Changes cc Hin) as [Ho _]. by intros Hne.
  - intros cv Hin. unfold absent. apply bool_decide_eq_false_2.
    by rewrite (cons_InOld cv Hin).
Qed.

Lemma consistent_InOld :
  InOld (DiffConfig A (patched A diff)) = InOld diff.
Proof.
  apply (sort_facts.ascending_unique cv_Opt);
    [apply InOld_ascending | apply Hcons |].
  intros cv. rewrite elem_of_InOld. split.
  - intros [HA HY].
    destruct (decide (cv_Opt cv ∈ cv_Opt <$> InOld diff)) as [Hold|Hold].
    { apply list_elem_of_fmap in Hold as (cv' & Hk & Hin).
      pose proof (cons_InOld cv' Hin) as HA'. rewrite <-Hk, HA in HA'.
      destruct cv, cv'; simpl in *. by simplify_eq. }
    destruct (decide (cv_Opt cv ∈ cv_Opt <$> InNew diff)) as [Hnew|Hnew].
    { apply cons_InNew_key in Hnew. congruence. }
    destruct (decide (cv_Opt cv ∈ cc_Opt <$> Changes diff)) as [Hchg|Hchg].
    { apply list_elem_of_fmap in Hchg as (cc & Hk & Hin).
      rewrite Hk in HY, Hnew.
      rewrite (patched_Changes A diff cons_NoDup_Changes cc Hin Hnew) in HY.
      done. }
    rewrite patched_other in HY by done. congruence.
  - intros Hin. split; [by apply cons_InOld|].
    apply patched_InOld; [done|by apply cons_disjoint|].
    intros Hnew%cons_InNew_key. rewrite (cons_InOld cv Hin) in Hnew. done.
Qed.

Lemma consistent_Changes :
  Changes (DiffConfig A (patched A diff)) = Changes diff.
Proof.
  apply (sort_facts.ascending_unique cc_Opt);
    [apply Changes_ascending | apply Hcons |].
  intros cc. rewrite elem_of_Changes. split.
  - intros (HA & HY & Hne).
    destruct (decide (cc_Opt cc ∈ cv_Opt <$> InNew diff)) as [Hnew|Hnew].
    { apply cons_InNew_key in Hnew. congruence. }
    destruct (decide (cc_Opt cc ∈ cc_Opt <$> Changes diff)) as [Hchg|Hchg].
    { apply list_elem_of_fmap in Hchg as (cc' & Hk & Hin).
      destruct (cons_Changes cc' Hin) as [HA' _].
      rewrite Hk in HA, HY, Hnew.
      rewrite (patched_Changes A diff cons_NoDup_Changes cc' Hin Hnew) in HY.
      rewrite HA in HA'.
      destruct cc, cc'; simpl in *. by simplify_eq. }
    destruct (decide (cc_Opt cc ∈ cv_Opt <$> InOld diff)) as [Hold|Hold].
    { apply list_elem_of_fmap in Hold as (cv & Hk & Hin).
      rewrite Hk in HY, Hchg, Hnew.
      rewrite (patched_InOld A diff cv Hin Hchg Hnew) in HY. done. }
    rewrite patched_other in HY by done. congruence.
  - intros Hin. destruct (cons_Changes cc Hin) as [HA Hne].
    split_and!; [done| |done].
    apply patched_Changes; [apply cons_NoDup_Changes|done|].
    intros Hnew%cons_InNew_key. congruence.
Qed.

Lemma consistent_InNew :
  InNew (DiffConfig A (patched A diff)) = InNew diff.
Proof.
  apply (sort_facts.ascending_unique cv_Opt);
    [apply InNew_ascending | apply Hcons |].
  intros cv. rewrite elem_of_InNew. split.
  - intros [HY HA].
    destruct (decide (cv_Opt cv ∈ cv_Opt <$> InNew diff)) as [Hnew|Hnew].
    { apply list_elem_of_fmap in Hnew as (cv' & Hk & Hin).
      rewrite Hk in HY.
      rewrite (patched_InNew A diff cons_NoDup_InNew cv' Hin) in HY.
      destruct cv, cv'; simpl in *. by simplify_eq. }
    destruct (decide (cv_Opt cv ∈ cc_Opt <$> Changes diff)) as [Hchg|Hchg].
    { apply cons_Changes_key in Hchg as [? ?]. congruence. }
    destruct (decide (cv_Opt cv ∈ cv_Opt <$> InOld diff)) as [Hold|Hold].
    { apply cons_InOld_key in Hold as [? ?]. congruence. }
    rewrite patched_other in HY by done. congruence.
  - intros Hin. split; [|by apply cons_InNew].
    by apply patched_InNew; [apply cons_NoDup_InNew|].
Qed.

Lemma consistent_patched : DiffConfig A (patched A diff) = diff.
Proof.
  pose proof consistent_InOld. pose proof consistent_Changes.
  pose proof consistent_InNew.
  destruct (DiffConfig A (patched A diff)), diff; simpl in *. congruence.
Qed.
End consistent.

(** What [DiffConfig] returns for [A] is consistent with [A]. *)
Lemma DiffConfig_consistent A B : consistent A (DiffConfig A B).
Proof.
  unfold consistent. rewrite !Forall_forall. split_and!.
  - apply InOld_ascending.
  - apply Changes_ascending.
  - apply InNew_ascending.
  - by intros cv [? _]%elem_of_InOld.
  - by intros cc (? & _ & ?)%elem_of_Changes.
  - by intros cv [_ ?]%elem_of_InNew.
  - intros cv [_ Hn]%elem_of_InOld
      (cc & Hk & (_ & Hn' & _)%elem_of_Changes)%list_elem_of_fmap.
    congruence.
Qed.

(** The consistent diffs are exactly those [DiffConfig] can return. *)
Lemma consistent_iff_DiffConfig A diff :
  consistent A diff ↔ ∃ B, diff = DiffConfig A B.
Proof.
  split.
  - intros Hcons. exists (patched A diff). symmetry.
    by apply consistent_patched.
  - intros [B ->]. apply DiffConfig_consistent.
Qed.

(** A consistent diff applies. *)
Lemma consistent_ApplyDiff A diff :
  consistent A diff → ApplyDiff A diff = inr (patched A diff).
Proof. intros Hcons. by rewrite ApplyDiff_eq, consistent_firstError. Qed.

(** C2. When a diff consistent with [A] applies to [A] with result [Y], the
    diff from [A] to [Y] is that diff. *)
Theorem DiffConfig_ApplyDiff (A : Config) (D : ConfigDiff) (Y : Config) :
  consistent A D → ApplyDiff A D = inr Y → DiffConfig A Y = D.
Proof.
  intros Hcons Happly.
  rewrite consistent_ApplyDiff in Happly by done.
  injection Happly as <-. by apply consistent_patched.
Qed.

Lemma DiffConfig_ApplyDiff_witness :
  consistent testCfg testDiff ∧ ApplyDiff testCfg testDiff = inr testWant ∧
  DiffConfig testCfg testWant = testDiff.
Proof.
  assert (consistent testCfg testDiff) as Hcons.
  { apply (bool_decide_unpack (consistent testCfg testDiff)).
    vm_compute. exact I. }
  assert (ApplyDiff testCfg testDiff = inr testWant) as Happly.
  { vm_compute. reflexivity. }
  split_and!; [done..|].
  exact (DiffConfig_ApplyDiff testCfg testDiff testWant Hcons Happly).
Defined.

(** That the diff applies is not enough: [ApplyDiff] does not compare the
    values of [InOld] with those of the configuration. *)
Lemma success_is_not_consistency :
  let diff := {| InOld := [{| cv_Opt := "X"; cv_Val := "other" |}];
                 Changes := []; InNew := [] |} in
  ∃ Y, ApplyDiff testCfg diff = inr Y ∧ DiffConfig testCfg Y ≠ diff.
Proof.
  eexists. split; [vm_compute; reflexivity|].
  intros Heq. vm_compute in Heq. discriminate Heq.
Qed.

(** ** [ApplyDiff] on map objects *)

Lemma Heap_extends_deref h0 new m h cfg :
  Heap.extends h0 new m h → Heap.allocated h0 cfg →
  Heap.deref h cfg = Heap.deref h0 cfg.
Proof.
  intros [Hnew ->] Hcfg. destruct cfg as [l|]; simpl in *; [|done].
  rewrite lookup_insert_ne; [done|]. intros <-. rewrite Hnew in Hcfg.
  by destruct Hcfg.
Qed.

Lemma Heap_extends_alter h0 new m h f :
  Heap.extends h0 new m h → Heap.extends h0 new (f m) (alter f new h).
Proof.
  intros [Hnew ->]. split; [done|].
  by rewrite alter_insert_eq.
Qed.

(** The loops on the heap do to the object at [new] what the loops on
    values do to [new], and leave every other object alone. *)
Lemma Heap_copyInto h0 new m h opts :
  Heap.extends h0 new m h →
  Heap.extends h0 new (copyInto opts m) (Heap.copyInto opts new h).
Proof.
  unfold copyInto, Heap.copyInto. revert m h.
  induction opts as [|kv opts IH]; intros m h Hext; simpl; [done|].
  by apply IH, (Heap_extends_alter _ _ _ _ (insert kv.1 kv.2)).
Qed.

Section heap_loops.
Context (h0 : Heap.Heap) (cfg : Heap.mapref) (new : nat).
Hypothesis Hcfg : Heap.allocated h0 cfg.

Lemma Heap_applyInOld inOld m h :
  Heap.extends h0 new m h →
  simulates h0 new (Heap.applyInOld cfg inOld new h)
            (applyInOld (Heap.deref h0 cfg) inOld m).
Proof.
  revert m h. induction inOld as [|cv l IH]; intros m h Hext; simpl; [done|].
  rewrite (Heap_extends_deref h0 new m h cfg) by done.
  destruct (Heap.deref h0 cfg !! cv_Opt cv); simpl; [|by eauto].
  by apply IH, Heap_extends_alter.
Qed.

Lemma Heap_applyChanges changes m h :
  Heap.extends h0 new m h →
  simulates h0 new (Heap.applyChanges cfg changes new h)
            (applyChanges (Heap.deref h0 cfg) changes m).
Proof.
  revert m h. induction changes as [|cc l IH]; intros m h Hext; simpl; [done|].
  rewrite (Heap_extends_deref h0 new m h cfg) by done.
  destruct (Heap.deref h0 cfg !! cc_Opt cc); simpl; [|by eauto].
  case_bool_decide; simpl; [by eauto|].
  by apply IH, (Heap_extends_alter _ _ _ _ (insert _ _)).
Qed.

Lemma Heap_applyInNew inNew m h :
  Heap.extends h0 new m h →
  simulates h0 new (Heap.applyInNew cfg inNew new h)
            (applyInNew (Heap.deref h0 cfg) inNew m).
Proof.
  revert m h. induction inNew as [|cv l IH]; intros m h Hext; simpl; [done|].
  rewrite (Heap_extends_deref h0 new m h cfg) by done.
  destruct (Heap.deref h0 cfg !! cv_Opt cv); simpl; [by eauto|].
  by apply IH, (Heap_extends_alter _ _ _ _ (insert _ _)).
Qed.
End heap_loops.

(** [Heap.ApplyDiff] returns what [ApplyDiff] returns on the value of [cfg]:
    the error and nil, or no error and the address of a new object that
    holds the result.  The heap after the call is the heap before it with
    one more object. *)
Lemma Heap_ApplyDiff h cfg diff :
  Heap.allocated h cfg →
  ∃ new m, Heap.extends h new m (Heap.ApplyDiff h cfg diff).1 ∧
    match ApplyDiff (Heap.deref h cfg) diff with
    | inl err => (Heap.ApplyDiff h cfg diff).2 = (None, Some err)
    | inr y => (Heap.ApplyDiff h cfg diff).2 = (Some new, None) ∧ m = y
    end.
Proof.
  intros Hcfg. unfold Heap.ApplyDiff, ApplyDiff, Heap.make.
  set (new := fresh (dom h)).
  assert (Heap.extends h new ∅ (<[new := ∅]> h)) as Hext.
  { split; [|done]. apply not_elem_of_dom, is_fresh. }
  rewrite (Heap_extends_deref h new ∅ _ cfg) by done.
  pose proof (Heap_copyInto h new ∅ _ (map_to_list (Heap.deref h cfg)) Hext)
    as Hcopy.
  fold (copyConfig (Heap.deref h cfg)) in Hcopy.
  pose proof (Heap_applyInOld h cfg new Hcfg (InOld diff) _ _ Hcopy) as H1.
  destruct (Heap.applyInOld _ _ _ _) as [h1 e1].
  destruct (applyInOld _ _ _) as [err|m1]; simpl in H1.
  { destruct H1 as [-> [m Hm]]. exists new, m. by simpl. }
  destruct H1 as [-> Hm1].
  pose proof (Heap_applyChanges h cfg new Hcfg (Changes diff) _ _ Hm1) as H2.
  destruct (Heap.applyChanges _ _ _ _) as [h2 e2].
  destruct (applyChanges _ _ _) as [err|m2]; simpl in H2.
  { destruct H2 as [-> [m Hm]]. exists new, m. by simpl. }
  destruct H2 as [-> Hm2].
  pose proof (Heap_applyInNew h cfg new Hcfg (InNew diff) _ _ Hm2) as H3.
  destruct (Heap.applyInNew _ _ _ _) as [h3 e3].
  destruct (applyInNew _ _ _) as [err|m3]; simpl in H3.
  { destruct H3 as [-> [m Hm]]. exists new, m. by simpl. }
  destruct H3 as [-> Hm3]. exists new, m3. by simpl.
Qed.

(** ** Which error [ApplyDiff] returns *)

Lemma find_Some_firstWith {X} (f : X → bool) (l : list X) (x : X) :
  List.find f l = Some x ↔ firstWith (λ y, f y = true) l x.
Proof.
  unfold firstWith. induction l as [|y l IH]; simpl.
  { split; [done|]. intros (l1 & l2 & Hl & _). by destruct l1. }
  destruct (f y) eqn:E.
  - split.
    + intros [= ->]. exists [], l. by repeat split.
    + intros (l1 & l2 & Hl & Hl1 & Hx). destruct l1 as [|z l1]; simpl in Hl.
      * by injection Hl as -> _.
      * injection Hl as -> _. apply Forall_cons in Hl1 as [Hz _]. congruence.
  - rewrite IH. split.
    + intros (l1 & l2 & -> & Hl1 & Hx). exists (y :: l1), l2.
      repeat split; [|done]. constructor; [congruence|done].
    + intros (l1 & l2 & Hl & Hl1 & Hx). destruct l1 as [|z l1]; simpl in Hl.
      * injection Hl as -> _. congruence.
      * injection Hl as -> ->. apply Forall_cons in Hl1 as [_ Hl1].
        by exists l1, l2.
Qed.

Lemma find_None_iff {X} (f : X → bool) (l : list X) :
  List.find f l = None ↔ ∀ x, x ∈ l → f x = false.
Proof.
  split; [|apply find_None_2].
  intros Hf x Hx. apply list_elem_of_In in Hx. by apply (find_none f l).
Qed.

Lemma find_is_Some {X} (f : X → bool) (l : list X) :
  is_Some (List.find f l) ↔ ∃ x, x ∈ l ∧ f x = true.
Proof.
  split.
  - intros [x Hx]. apply find_some in Hx as [Hin Hf].
    exists x. by rewrite list_elem_of_In.
  - intros (x & Hin & Hf). destruct (List.find f l) eqn:E; [done|].
    rewrite find_None_iff in E. rewrite E in Hf; done.
Qed.

Lemma ApplyDiff_inl cfg diff err :
  ApplyDiff cfg diff = inl err ↔ firstError cfg diff = Some err.
Proof.
  rewrite ApplyDiff_eq. destruct (firstError cfg diff); naive_solver.
Qed.

Section errors.
Context (cfg : Config) (diff : ConfigDiff).

Lemma find_absent_None :
  List.find (absent cfg) (InOld diff) = None ↔ InOld_present cfg diff.
Proof.
  rewrite find_None_iff. unfold InOld_present, absent.
  apply forall_proper; intros cv. apply forall_proper; intros _.
  rewrite bool_decide_eq_false. rewrite <-not_eq_None_Some. done.
Qed.

Lemma find_unmatched_None :
  List.find (unmatched cfg) (Changes diff) = None ↔ Changes_match cfg diff.
Proof.
  rewrite find_None_iff. unfold Changes_match, unmatched.
  apply forall_proper; intros cc. apply forall_proper; intros _.
  rewrite bool_decide_eq_false. split; [apply dec_stable|by intros ? ?].
Qed.

Lemma find_unmatched_Some cc :
  List.find (unmatched cfg) (Changes diff) = Some cc ↔ firstBadChange cfg diff cc.
Proof.
  rewrite find_Some_firstWith. unfold firstBadChange, firstWith, unmatched.
  split; intros (l1 & l2 & Hl & Hl1 & Hx); exists l1, l2;
    (split_and!; [done| |]).
  - eapply Forall_impl; [exact Hl1|]. intros c Hc. simpl in Hc.
    by rewrite bool_decide_eq_true in Hc.
  - by apply bool_decide_eq_true in Hx.
  - eapply Forall_impl; [exact Hl1|]. intros c Hc. simpl in Hc.
    by rewrite bool_decide_eq_true.
  - by apply bool_decide_eq_true.
Qed.

Lemma find_decide_firstWith {X} (P : X → Prop) `{∀ x, Decision (P x)}
    (l : list X) (x : X) :
  List.find (λ y, bool_decide (P y)) l = Some x ↔ firstWith P l x.
Proof.
  rewrite find_Some_firstWith. unfold firstWith.
  split; intros (l1 & l2 & Hl & Hl1 & Hx); exists l1, l2;
    (split_and!; [done| |]).
  - eapply Forall_impl; [exact Hl1|]. intros c Hc. simpl in Hc.
    by rewrite bool_decide_eq_true in Hc.
  - by apply bool_decide_eq_true in Hx.
  - eapply Forall_impl; [exact Hl1|]. intros c Hc. simpl.
    by rewrite bool_decide_eq_true.
  - by apply bool_decide_eq_true.
Qed.

(** The error names the first entry of [InOld] that fails its check. *)
Lemma invalidOldValue_first cv :
  ApplyDiff cfg diff = inl (invalidOldValueError cv) ↔ firstAbsentOld cfg diff cv.
Proof.
  rewrite ApplyDiff_inl. unfold firstAbsentOld.
  rewrite <-(find_decide_firstWith (λ cv, cfg !! cv_Opt cv = None)).
  fold (absent cfg). unfold firstError.
  destruct (List.find (absent cfg) (InOld diff)) as [cv'|]; [naive_solver|].
  unfold changeError. repeat case_match; naive_solver.
Qed.

(** The error names the first entry of [InNew] that fails its check. *)
Lemma invalidNewValue_first cv :
  ApplyDiff cfg diff = inl (invalidNewValueError cv) ↔
  InOld_present cfg diff ∧ Changes_match cfg diff ∧ firstPresentNew cfg diff cv.
Proof.
  rewrite ApplyDiff_inl, <-find_absent_None, <-find_unmatched_None.
  unfold firstPresentNew.
  rewrite <-(find_decide_firstWith (λ cv, is_Some (cfg !! cv_Opt cv))).
  fold (present cfg). unfold firstError.
  destruct (List.find (absent cfg) (InOld diff)); [naive_solver|].
  destruct (List.find (unmatched cfg) (Changes diff)) as [cc'|].
  { unfold changeError. destruct (cfg !! cc_Opt cc'); naive_solver. }
  destruct (List.find (present cfg) (InNew diff)); naive_solver.
Qed.

Lemma invalidOldValue_iff :
  (∃ cv, ApplyDiff cfg diff = inl (invalidOldValueError cv)) ↔
  ∃ cv, cv ∈ InOld diff ∧ cfg !! cv_Opt cv = None.
Proof.
  setoid_rewrite ApplyDiff_inl. unfold firstError.
  destruct (List.find (absent cfg) (InOld diff)) as [cv|] eqn:E.
  - split; intros _.
    + apply find_some in E as [Hin Habs]. exists cv.
      rewrite list_elem_of_In. split; [done|].
      by apply bool_decide_eq_true in Habs.
    + by exists cv.
  - split.
    + intros [cv Herr]. unfold changeError in Herr.
      repeat case_match; simplify_eq.
    + intros (cv & Hin & Hnone). apply find_absent_None in E.
      destruct (E cv Hin). congruence.
Qed.

Lemma invalidChange_iff cc :
  ApplyDiff cfg diff = inl (invalidChangeError cc) ↔
  InOld_present cfg diff ∧ firstBadChange cfg diff cc ∧ cfg !! cc_Opt cc = None.
Proof.
  rewrite ApplyDiff_inl, <-find_absent_None, <-find_unmatched_Some.
  unfold firstError.
  destruct (List.find (absent cfg) (InOld diff)); [naive_solver|].
  destruct (List.find (unmatched cfg) (Changes diff)) as [cc'|].
  - unfold changeError. destruct (cfg !! cc_Opt cc') eqn:E; naive_solver.
  - repeat case_match; naive_solver.
Qed.

Lemma mismatchedChange_iff cc oldval :
  ApplyDiff cfg diff = inl (mismatchedChangeError cc oldval) ↔
  InOld_present cfg diff ∧ firstBadChange cfg diff cc ∧ cfg !! cc_Opt cc = Some oldval.
Proof.
  rewrite ApplyDiff_inl, <-find_absent_None, <-find_unmatched_Some.
  unfold firstError.
  destruct (List.find (absent cfg) (InOld diff)); [naive_solver|].
  destruct (List.find (unmatched cfg) (Changes diff)) as [cc'|].
  - unfold changeError. destruct (cfg !! cc_Opt cc') eqn:E; naive_solver.
  - repeat case_match; naive_solver.
Qed.

Lemma invalidNewValue_iff :
  (∃ cv, ApplyDiff cfg diff = inl (invalidNewValueError cv)) ↔
  InOld_present cfg diff ∧ Changes_match cfg diff ∧
  ∃ cv, cv ∈ InNew diff ∧ is_Some (cfg !! cv_Opt cv).
Proof.
  setoid_rewrite ApplyDiff_inl.
  rewrite <-find_absent_None, <-find_unmatched_None.
  unfold firstError.
  destruct (List.find (absent cfg) (InOld diff)); [naive_solver|].
  destruct (List.find (unmatched cfg) (Changes diff)) as [cc'|].
  { unfold changeError. destruct (cfg !! cc_Opt cc'); naive_solver. }
  destruct (List.find (present cfg) (InNew diff)) as [cv|] eqn:E.
  - split; [|by eauto]. intros _. split_and!; [done..|].
    apply find_some in E as [Hin Hp]. exists cv.
    rewrite list_elem_of_In. split; [done|].
    by apply bool_decide_eq_true in Hp.
  - split; [naive_solver|]. intros (_ & _ & cv & Hin & Hp).
    rewrite find_None_iff in E. specialize (E cv Hin).
    by apply bool_decide_eq_false in E.
Qed.
End errors.

Lemma Heap_ApplyDiff_error h cfg diff err :
  Heap.allocated h cfg →
  (Heap.ApplyDiff h cfg diff).2.2 = Some err ↔
  ApplyDiff (Heap.deref h cfg) diff = inl err.
Proof.
  intros Hcfg.
  destruct (Heap_ApplyDiff h cfg diff Hcfg) as (new & m & _ & Hret).
  destruct (ApplyDiff (Heap.deref h cfg) diff) as [e|y].
  - rewrite Hret. simpl. naive_solver.
  - destruct Hret as [-> _]. simpl. naive_solver.
Qed.

(** A call leaves every object of the heap as it was: the map it was given,
    and any other. *)
Lemma Heap_ApplyDiff_frame h cfg diff l :
  Heap.allocated h cfg → is_Some (h !! l) →
  (Heap.ApplyDiff h cfg diff).1 !! l = h !! l.
Proof.
  intros Hcfg Hl.
  destruct (Heap_ApplyDiff h cfg diff Hcfg) as (new & m & [Hnew ->] & _).
  apply lookup_insert_ne. intros <-. rewrite Hnew in Hl. by destruct Hl.
Qed.

(** C7, as the code has it.  [ApplyDiff] checks [InOld], then [Changes],
    then [InNew], and fails at the first entry that does not pass, which the
    error carries: with [invalidOldValueError] for [cv] exactly when [cv] is
    the first entry of [InOld] whose option is absent from [cfg], hence with
    an [invalidOldValueError] exactly when the option of some [InOld] entry
    is absent; with [invalidChangeError] for [cc] exactly when every [InOld]
    option is present, [cc] is the first entry of [Changes] whose option
    does not hold the recorded old value, and that option is absent; with
    [mismatchedChangeError] for [cc] and [oldval] exactly when every [InOld]
    option is present, [cc] is that first entry, and its option holds
    [oldval]; with [invalidNewValueError] for [cv] exactly when every
    [InOld] option is present, every [Changes] entry matches, and [cv] is
    the first entry of [InNew] whose option is present, hence with an
    [invalidNewValueError] exactly when the first two hold and the option of
    some [InNew] entry is present.  On failure the call returns nil for the
    configuration, and [cfg] and every other map are unchanged. *)
Theorem ApplyDiff_failure (h : Heap.Heap) (cfg : Heap.mapref) (diff : ConfigDiff) :
  Heap.allocated h cfg →
  let c := Heap.deref h cfg in
  let h' := (Heap.ApplyDiff h cfg diff).1 in
  let ret := (Heap.ApplyDiff h cfg diff).2.1 in
  let err := (Heap.ApplyDiff h cfg diff).2.2 in
  (∀ cv, err = Some (invalidOldValueError cv) ↔ firstAbsentOld c diff cv) ∧
  ((∃ cv, err = Some (invalidOldValueError cv)) ↔
     ∃ cv, cv ∈ InOld diff ∧ c !! cv_Opt cv = None) ∧
  (∀ cc, err = Some (invalidChangeError cc) ↔
     InOld_present c diff ∧ firstBadChange c diff cc ∧ c !! cc_Opt cc = None) ∧
  (∀ cc oldval, err = Some (mismatchedChangeError cc oldval) ↔
     InOld_present c diff ∧ firstBadChange c diff cc ∧
     c !! cc_Opt cc = Some oldval) ∧
  (∀ cv, err = Some (invalidNewValueError cv) ↔
     InOld_present c diff ∧ Changes_match c diff ∧ firstPresentNew c diff cv) ∧
  ((∃ cv, err = Some (invalidNewValueError cv)) ↔
     InOld_present c diff ∧ Changes_match c diff ∧
     ∃ cv, cv ∈ InNew diff ∧ is_Some (c !! cv_Opt cv)) ∧
  (is_Some err →
     ret = None ∧ Heap.deref h' cfg = c ∧
     ∀ l, is_Some (h !! l) → h' !! l = h !! l).
Proof.
  intros Hcfg c h' ret err. subst c h' ret err. split_and!.
  - intros cv. rewrite Heap_ApplyDiff_error by done.
    apply invalidOldValue_first.
  - setoid_rewrite Heap_ApplyDiff_error; [|done]. apply invalidOldValue_iff.
  - intros cc. rewrite Heap_ApplyDiff_error by done. apply invalidChange_iff.
  - intros cc oldval. rewrite Heap_ApplyDiff_error by done.
    apply mismatchedChange_iff.
  - intros cv. rewrite Heap_ApplyDiff_error by done.
    apply invalidNewValue_first.
  - setoid_rewrite Heap_ApplyDiff_error; [|done]. apply invalidNewValue_iff.
  - intros [e He]. split_and!.
    + destruct (Heap_ApplyDiff h cfg diff Hcfg) as (new & m & _ & Hret).
      apply Heap_ApplyDiff_error in He; [|done]. rewrite He in Hret.
      by rewrite Hret.
    + destruct (Heap_ApplyDiff h cfg diff Hcfg) as (new & m & Hext & _).
      by apply (Heap_extends_deref h new m).
    + intros l Hl. by apply Heap_ApplyDiff_frame.
Qed.

Lemma ApplyDiff_failure_witness :
  Heap.allocated testHeap (Some 0) ∧
  (Heap.ApplyDiff testHeap (Some 0) testBadDiff).2 =
    (None, Some (invalidOldValueError {| cv_Opt := "T"; cv_Val := "t" |})) ∧
  Heap.deref (Heap.ApplyDiff testHeap (Some 0) testBadDiff).1 (Some 0) = testCfg.
Proof.
  assert (Heap.allocated testHeap (Some 0)) as Halloc.
  { apply (bool_decide_unpack (Heap.allocated testHeap (Some 0))).
    vm_compute. exact I. }
  pose proof (ApplyDiff_failure testHeap (Some 0) testBadDiff Halloc)
    as (_ & _ & _ & _ & _ & _ & Hfail).
  assert ((Heap.ApplyDiff testHeap (Some 0) testBadDiff).2.2 =
          Some (invalidOldValueError {| cv_Opt := "T"; cv_Val := "t" |}))
    as Herr by (vm_compute; reflexivity).
  destruct Hfail as (Hret & Hcfg & _); [by rewrite Herr|].
  split_and!; [done| |].
  - destruct (Heap.ApplyDiff testHeap (Some 0) testBadDiff).2 as [r e].
    simpl in *. by rewrite Hret, Herr.
  - rewrite Hcfg. vm_compute. reflexivity.
Defined.

(** C7, as the specification has it, does not hold: an absent option in
    [Changes] does not give [invalidChangeError] when an [InOld] entry fails
    first. *)
Lemma ApplyDiff_InvalidChange_not_exact :
  ¬ ((∃ cc, ApplyDiff testCfg testBadDiff = inl (invalidChangeError cc)) ↔
     (∃ cc, cc ∈ Changes testBadDiff ∧ testCfg !! cc_Opt cc = None)).
Proof.
  intros [_ Hclaim].
  destruct Hclaim as [cc Hcc].
  { exists {| cc_Opt := "T"; cc_OldVal := "t"; cc_NewVal := "tt" |}.
    split; [left|]. vm_compute. reflexivity. }
  vm_compute in Hcc. discriminate Hcc.
Qed.

(** ** The serializer *)

Lemma append_assoc (s1 s2 s3 : string) : (s1 +:+ s2) +:+ s3 = s1 +:+ (s2 +:+ s3).
Proof.
  induction s1 as [|c s1 IH]; [done|].
  change (String c ((s1 +:+ s2) +:+ s3) = String c (s1 +:+ (s2 +:+ s3))).
  by rewrite IH.
Qed.

Lemma append_empty_r (s : string) : s +:+ "" = s.
Proof.
  induction s as [|c s IH]; [done|].
  change (String c (s +:+ "") = String c s). by rewrite IH.
Qed.

(** Once the error is set, nothing more is written. *)
Lemma WriteLine_sticky `{Writer W} (cfgw : configWriter W) option value :
  is_Some (cw_Err cfgw) → WriteLine cfgw option value = cfgw.
Proof. intros [e He]. unfold WriteLine. by rewrite He. Qed.

Lemma WriteLines_sticky `{Writer W} (cfg : Config) opts (cfgw : configWriter W) :
  is_Some (cw_Err cfgw) →
  fold_left (λ cfgw opt, WriteLine cfgw opt (valueOf cfg opt)) opts cfgw = cfgw.
Proof.
  intros He. induction opts as [|opt opts IH]; simpl; [done|].
  by rewrite WriteLine_sticky.
Qed.

Lemma int64_add a b : int64 (int64 a + int64 b) = int64 (a + b).
Proof.
  unfold int64.
  change (2 ^ 63)%Z with 9223372036854775808%Z.
  change (2 ^ 64)%Z with 18446744073709551616%Z.
  Z.div_mod_to_equations. lia.
Qed.

Lemma length_append s t :
  String.length (s +:+ t) = (String.length s + String.length t)%nat.
Proof.
  induction s as [|c s IH]; [done|].
  change (S (String.length (s +:+ t)) = S (String.length s + String.length t)).
  by rewrite IH.
Qed.

Lemma WriteLine_Buffer (cfgw : configWriter string) option value :
  cw_Err cfgw = None →
  WriteLine cfgw option value =
  {| cw_W := cw_W cfgw +:+ configLine option value;
     cw_N := int64 (cw_N cfgw +
                    int64 (Z.of_nat (String.length (configLine option value))));
     cw_Err := None |}.
Proof.
  intros He. unfold WriteLine, configLine, Fprintf, Write, Buffer_Writer.
  rewrite He. destruct (String.eqb_spec value "n") as [->|Hne].
  - by rewrite decide_True.
  - by rewrite decide_False.
Qed.

(** The loop of [WriteTo] on a buffer: the lines are appended, the count
    grows by their length, and there is no error. *)
Lemma WriteLines_Buffer (cfg : Config) opts (cfgw : configWriter string) n :
  cw_Err cfgw = None → cw_N cfgw = int64 n →
  let text := joinLines ((λ opt, configLine opt (valueOf cfg opt)) <$> opts) in
  fold_left (λ cfgw opt, WriteLine cfgw opt (valueOf cfg opt)) opts cfgw =
  {| cw_W := cw_W cfgw +:+ text;
     cw_N := int64 (n + Z.of_nat (String.length text));
     cw_Err := None |}.
Proof.
  revert cfgw n. induction opts as [|opt opts IH]; intros cfgw n He HN; simpl.
  { rewrite append_empty_r, Z.add_0_r, <-HN, <-He. by destruct cfgw. }
  rewrite WriteLine_Buffer by done.
  rewrite (IH _ (n + Z.of_nat (String.length (configLine opt (valueOf cfg opt))))%Z);
    [|done|by rewrite HN, int64_add].
  simpl. rewrite append_assoc. f_equal.
  change (fold_right String.append "" ?l) with (joinLines l).
  rewrite length_append, Nat2Z.inj_add, Z.add_assoc. done.
Qed.

Lemma Strings_eq l : sort.Strings l = sort.Slice (lessBy id) l.
Proof. reflexivity. Qed.

Lemma sorted_options (cfg : Config) :
  let opts := sort.Strings ((map_to_list cfg).*1) in
  ascendingStrings opts ∧ NoDup opts ∧ ∀ opt, opt ∈ opts ↔ is_Some (cfg !! opt).
Proof.
  pose proof (NoDup_fst_map_to_list cfg) as Hnd.
  assert (NoDup (id <$> (map_to_list cfg).*1)) as Hnd' by (by rewrite list_fmap_id).
  pose proof (sort_facts.Slice_ascending id _ Hnd') as Hs.
  simpl. split_and!.
  - exact Hs.
  - apply sort_facts.ascending_NoDup in Hs. by rewrite list_fmap_id in Hs.
  - intros opt. rewrite Strings_eq, (sort_facts.Slice_Permutation id).
    rewrite list_elem_of_fmap. split.
    + intros ([k v] & -> & Hin). apply elem_of_map_to_list in Hin.
      simpl. by rewrite Hin.
    + intros [v Hv]. exists (opt, v). split; [done|].
      by apply elem_of_map_to_list.
Qed.

(** The order in which the option names are collected does not show. *)
Lemma WriteToIn_order `{Writer W} opts (cfg : Config) (w : W) :
  opts ≡ₚ (map_to_list cfg).*1 → WriteToIn opts cfg w = WriteTo cfg w.
Proof.
  intros Hp. unfold WriteTo, WriteToIn. rewrite !Strings_eq.
  rewrite (sort_facts.Slice_order id opts ((map_to_list cfg).*1)); [done| |done].
  rewrite list_fmap_id, Hp. apply NoDup_fst_map_to_list.
Qed.

Lemma sortedBy_fmap {X Y} (key : Y → string) (f : X → Y) (l : list X) :
  sortedBy key (f <$> l) ↔ sortedBy (λ x, key (f x)) l.
Proof.
  unfold sortedBy. induction l as [|x l IH]; [split; constructor|].
  rewrite fmap_cons, !StronglySorted_cons, IH, Forall_fmap. done.
Qed.

(** The options of [cfg] with their values, in the order of [opts]. *)
Lemma elem_of_entries (cfg : Config) (opts : list string) opt val :
  (∀ opt, opt ∈ opts ↔ is_Some (cfg !! opt)) →
  (opt, val) ∈ (λ opt, (opt, valueOf cfg opt)) <$> opts ↔ cfg !! opt = Some val.
Proof.
  intros Hel. rewrite list_elem_of_fmap. unfold valueOf. split.
  - intros (o & [= <- ->] & [v Hv]%Hel). by rewrite Hv.
  - intros Hv. exists opt. rewrite Hv. split; [done|]. apply Hel. by exists val.
Qed.

(** C9. Written to a buffer, a configuration gives one line for each of its
    options, in strictly ascending byte order of the option names: for an
    option with the value [n] the line [# CONFIG_<name> is not set], and for
    an option with another value the line [CONFIG_<name>=<value>].  The
    count returned is the length of this text (as an [int64]) and there is
    no error.  The empty (or nil) configuration writes nothing and counts
    zero bytes. *)
Theorem WriteTo_Buffer (cfg : Config) (buf : string) :
  (∃ entries : list (string * string),
     sortedBy fst entries ∧ NoDup (entries.*1) ∧
     (∀ opt val, (opt, val) ∈ entries ↔ cfg !! opt = Some val) ∧
     let line := λ '(opt, val),
       if decide (val = "n")
       then "# CONFIG_" +:+ opt +:+ " is not set" +:+ bufio.newline
       else "CONFIG_" +:+ opt +:+ "=" +:+ val +:+ bufio.newline in
     let text := joinLines (line <$> entries) in
     WriteTo cfg buf =
       (buf +:+ text, (int64 (Z.of_nat (String.length text)), None))) ∧
  WriteTo (∅ : Config) buf = (buf, (0%Z, None)).
Proof.
  destruct (sorted_options cfg) as (Hs & Hnd & Hel). split.
  - exists ((λ opt, (opt, valueOf cfg opt)) <$> sort.Strings ((map_to_list cfg).*1)).
    split_and!.
    + apply sortedBy_fmap. by apply (sort_facts.ascending_sortedBy id).
    + rewrite <-list_fmap_compose. by rewrite list_fmap_id.
    + intros opt val. by apply elem_of_entries.
    + cbn zeta. rewrite <-list_fmap_compose.
      unfold WriteTo, WriteToIn.
      by rewrite (WriteLines_Buffer cfg _ _ 0).
  - unfold WriteTo, WriteToIn. by rewrite map_to_list_empty.
Qed.

(** ** The parser *)

Lemma noEquals_cons c s : noEquals (String c s) ↔ c ≠ "="%char ∧ noEquals s.
Proof. unfold noEquals. simpl. rewrite not_elem_of_cons. naive_solver. Qed.

Lemma drop_noEquals n s : noEquals s → noEquals (strings.drop n s).
Proof.
  revert s. induction n as [|n IH]; intros [|c s]; simpl; try done.
  intros [_ Hs]%noEquals_cons. by apply IH.
Qed.

Lemma substring_noEquals n s : noEquals s → noEquals (substring 0 n s).
Proof.
  revert s. induction n as [|n IH]; intros [|c s]; simpl; try done.
  - intros _. unfold noEquals. simpl. apply not_elem_of_nil.
  - intros [Hc Hs]%noEquals_cons. apply noEquals_cons. split; [done|by apply IH].
Qed.

Lemma TrimPrefix_noEquals s p : noEquals s → noEquals (strings.TrimPrefix s p).
Proof.
  intros Hs. unfold strings.TrimPrefix.
  destruct (strings.HasPrefix s p); [by apply drop_noEquals|done].
Qed.

Lemma TrimSuffix_noEquals s p : noEquals s → noEquals (strings.TrimSuffix s p).
Proof.
  intros Hs. unfold strings.TrimSuffix.
  destruct (strings.HasSuffix s p); [by apply substring_noEquals|done].
Qed.

Lemma TrimSpace_noEquals s : noEquals s → noEquals (strings.TrimSpace s).
Proof.
  intros Hs. unfold strings.TrimSpace.
  assert (∀ fuel s, noEquals s → noEquals (strings.trimLeftSpace fuel s)) as Hl.
  { induction fuel as [|fuel IH]; intros s0 Hs0;
      cbn [strings.trimLeftSpace]; [done|].
    destruct (List.find (strings.HasPrefix s0) strings.spaceRunes); [|done].
    by apply IH, drop_noEquals. }
  assert (∀ fuel s, noEquals s → noEquals (strings.trimRightSpace fuel s)) as Hr.
  { induction fuel as [|fuel IH]; intros s0 Hs0;
      cbn [strings.trimRightSpace]; [done|].
    destruct (List.find (strings.HasSuffix s0) strings.spaceRunes); [|done].
    by apply IH, TrimSuffix_noEquals. }
  by apply Hr, Hl.
Qed.

Lemma HasPrefix_equals c s :
  c ≠ "="%char → strings.HasPrefix (String c s) "=" = false.
Proof.
  intros Hc. unfold strings.HasPrefix. cbn [String.prefix].
  destruct (ascii_dec "=" c); congruence.
Qed.

Lemma Cut_noEquals s : noEquals s → strings.Cut s "=" = None.
Proof.
  induction s as [|c s IH]; [done|].
  intros [Hc Hs]%noEquals_cons. cbn [strings.Cut].
  by rewrite HasPrefix_equals, IH.
Qed.

(** A text without [=] splits into itself. *)
Lemma Split_noEquals s : noEquals s → strings.Split s "=" = [s].
Proof.
  intros Hs. unfold strings.Split.
  destruct (String.length s); cbn [strings.genSplit]; [done|].
  by rewrite Cut_noEquals.
Qed.

(** The parser panics on every [CONFIG_] line without [=]. *)
Lemma parseConfigLine_no_equals line :
  strings.HasPrefix (strings.TrimSpace line) "CONFIG_" = true → noEquals line →
  parseConfigLine line = Panics (indexOutOfRange 1 1).
Proof.
  intros Hp Hs. unfold parseConfigLine. rewrite Hp.
  rewrite Split_noEquals; [done|].
  by apply TrimPrefix_noEquals, TrimSpace_noEquals.
Qed.

(** C10. There is a line that begins with [CONFIG_] and has no [=] on which
    the parser panics: the split has length 1 and index 1 is out of range.
    [ParseConfig] panics on a text with such a line. *)
Theorem parseConfigLine_panics :
  ∃ line,
    strings.HasPrefix line "CONFIG_" = true ∧
    noEquals line ∧
    length (strings.Split (strings.TrimPrefix (strings.TrimSpace line) "CONFIG_") "=") = 1 ∧
    parseConfigLine line = Panics (indexOutOfRange 1 1) ∧
    ParseConfig (NewReader ("CONFIG_X=y" +:+ bufio.newline +:+ line +:+ bufio.newline)) =
      Panics (indexOutOfRange 1 1).
Proof.
  exists "CONFIG_FOO". split_and!; try (vm_compute; reflexivity).
  apply (bool_decide_unpack _). vm_compute. exact I.
Qed.

(** C4 fails on the code: [strings.Split] cuts the line at every [=], and
    the parser keeps the text between the first and the second one.  Of the
    quoted value [console=ttyS0] it keeps the opening quote and [console]. *)
Theorem parseConfigLine_cuts_value :
  parseConfigLine ("CONFIG_CMDLINE=" +:+ quote +:+ "console=ttyS0" +:+ quote) =
    Returns ("CMDLINE", quote +:+ "console") ∧
  ParseConfig (NewReader ("CONFIG_CMDLINE=" +:+ quote +:+ "console=ttyS0" +:+ quote
                          +:+ bufio.newline)) =
    Returns (inr {[ "CMDLINE" := quote +:+ "console" ]}).
Proof. split; vm_compute; reflexivity. Qed.

(** C5 fails on the code: a line that ends in [ is not set] and does not
    begin with [# CONFIG_] is not skipped; everything before the suffix
    becomes an option with the value [n]. *)
Theorem parseConfigLine_comment_not_set :
  parseConfigLine "# debug is not set" = Returns ("# debug", "n") ∧
  ParseConfig (NewReader ("# debug is not set" +:+ bufio.newline)) =
    Returns (inr {[ "# debug" := "n" ]}).
Proof. split; vm_compute; reflexivity. Qed.

(** C6 fails on the code, by the defect of C4.  What the parser keeps of
    the quoted value [quiet =1] ends in a space; written out, the space ends
    the line, and the second parse trims it. *)
Theorem parse_write_parse_differs :
  let text := "CONFIG_CMDLINE=" +:+ quote +:+ "quiet =1" +:+ quote +:+ bufio.newline in
  let first : Config := {[ "CMDLINE" := quote +:+ "quiet " ]} in
  let second : Config := {[ "CMDLINE" := quote +:+ "quiet" ]} in
  ParseConfig (NewReader text) = Returns (inr first) ∧
  WriteTo first "" =
    ("CONFIG_CMDLINE=" +:+ quote +:+ "quiet " +:+ bufio.newline, (23%Z, None)) ∧
  ParseConfig (NewReader (WriteTo first "").1) = Returns (inr second) ∧
  Equal first second = false.
Proof. split_and!; vm_compute; reflexivity. Qed.

(** ** The tests of the package

    The cases of [config_test.go], run on the embedding. *)

Example testConfigParse :
  ParseConfig (NewReader ("# comment" +:+ bufio.newline +:+
                          "# CONFIG_X is not set" +:+ bufio.newline +:+
                          "CONFIG_Y=y" +:+ bufio.newline +:+
                          "CONFIG_Z=" +:+ quote +:+ quote +:+ bufio.newline)) =
  Returns (inr (cfgOf [("X", "n"); ("Y", "y"); ("Z", quote +:+ quote)])).
Proof. vm_compute. reflexivity. Qed.

Example testConfigEqual :
  let cfg := cfgOf [("X", "n"); ("Y", "y"); ("Z", quote +:+ quote)] in
  Equal cfg cfg = true ∧
  Equal cfg (cfgOf [("X", "n"); ("Y", "y"); ("Z", quote +:+ quote); ("T", "42")]) = false ∧
  Equal cfg (cfgOf [("X", ""); ("Y", "y"); ("Z", quote +:+ quote)]) = false ∧
  Equal cfg (cfgOf [("Y", "y"); ("Z", quote +:+ quote)]) = false.
Proof. split_and!; vm_compute; reflexivity. Qed.

Example testConfigWriteTo :
  (WriteTo (cfgOf [("FOO", "n"); ("BAR", "y"); ("BAZ", quote +:+ quote); ("QUUX", "42")]) "").1 =
  "CONFIG_BAR=y" +:+ bufio.newline +:+
  "CONFIG_BAZ=" +:+ quote +:+ quote +:+ bufio.newline +:+
  "# CONFIG_FOO is not set" +:+ bufio.newline +:+
  "CONFIG_QUUX=42" +:+ bufio.newline.
Proof. vm_compute. reflexivity. Qed.

Example testApplyDiff :
  ApplyDiff testCfg testDiff = inr testWant ∧
  ApplyDiff testCfg {| InOld := [mkValue "T" "t"]; Changes := []; InNew := [] |} =
    inl (invalidOldValueError (mkValue "T" "t")) ∧
  ApplyDiff testCfg {| InOld := []; Changes := [mkChange "T" "t" "tt"]; InNew := [] |} =
    inl (invalidChangeError (mkChange "T" "t" "tt")) ∧
  ApplyDiff testCfg {| InOld := []; Changes := [mkChange "X" "t" "tt"]; InNew := [] |} =
    inl (mismatchedChangeError (mkChange "X" "t" "tt") "x") ∧
  ApplyDiff testCfg {| InOld := []; Changes := []; InNew := [mkValue "X" "t"] |} =
    inl (invalidNewValueError (mkValue "X" "t")).
Proof. split_and!; vm_compute; reflexivity. Qed.

Example testDiffConfigBasic :
  DiffConfig (cfgOf [("FOO", "42")]) (cfgOf [("FOO", "42")]) = emptyDiff ∧
  DiffConfig
    (cfgOf [("FOO", "4"); ("FOO2", "42"); ("BAR", "n"); ("X", "x"); ("Y", "y");
            ("QUUX", "23")])
    (cfgOf [("QUUX", "23"); ("BAZ", "blah"); ("BAZ2", "blah2"); ("X", "z");
            ("Y", "t"); ("BAR", "y")]) =
  {| InOld := [mkValue "FOO" "4"; mkValue "FOO2" "42"];
     Changes := [mkChange "BAR" "n" "y"; mkChange "X" "x" "z"; mkChange "Y" "y" "t"];
     InNew := [mkValue "BAZ" "blah"; mkValue "BAZ2" "blah2"] |}.
Proof. split; vm_compute; reflexivity. Qed.

(** * More of the package *)

(** ** Writers in general *)

Lemma writeAll_app `{Writer W} (w : W) l1 l2 :
  writeAll w (l1 ++ l2) =
  let '(w1, (n1, e1)) := writeAll w l1 in
  match e1 with
  | Some _ => (w1, (n1, e1))
  | None => let '(w2, (n2, e2)) := writeAll w1 l2 in (w2, ((n1 + n2)%Z, e2))
  end.
Proof.
  revert w. induction l1 as [|line l1 IH]; intros w; simpl.
  { destruct (writeAll w l2) as [w2 [n2 e2]]. done. }
  destruct (Write w line) as [w' [n e]]. destruct e as [e|]; [done|].
  rewrite IH. destruct (writeAll w' l1) as [w1 [n1 [e1|]]]; [done|].
  destruct (writeAll w1 l2) as [w2 [n2 e2]]. by rewrite Z.add_assoc.
Qed.

Lemma writeAll_Buffer (buf : string) lines :
  writeAll buf lines =
  (buf +:+ joinLines lines, (Z.of_nat (String.length (joinLines lines)), None)).
Proof.
  revert buf. induction lines as [|line lines IH]; intros buf.
  { simpl. by rewrite append_empty_r. }
  cbn [writeAll].
  change (Write buf line) with (buf +:+ line, (Z.of_nat (String.length line), @None ioError)).
  cbn beta iota. rewrite IH.
  change (joinLines (line :: lines)) with (line +:+ joinLines lines).
  by rewrite append_assoc, length_append, Nat2Z.inj_add.
Qed.

Lemma int64_add_l a b : int64 (int64 a + b) = int64 (a + b).
Proof.
  unfold int64.
  change (2 ^ 63)%Z with 9223372036854775808%Z.
  change (2 ^ 64)%Z with 18446744073709551616%Z.
  Z.div_mod_to_equations. lia.
Qed.

(** A loop over a writer with a sticky error writes like [writeAll]. *)
Section sticky.
Context `{Writer W} {St A : Type}.
Context (getW : St → W) (getN : St → Z) (getErr : St → option ioError).
Context (mk : W → Z → option ioError → St).
Context (step : St → A → St) (line : A → string).
Hypothesis mk_eta : ∀ s, mk (getW s) (getN s) (getErr s) = s.
Hypothesis step_eq : ∀ s a,
  step s a =
  match getErr s with
  | Some _ => s
  | None =>
      let '(w, (n, err)) := Write (getW s) (line a) in
      mk w (int64 (getN s + int64 n)) err
  end.
Hypothesis getW_mk : ∀ w n e, getW (mk w n e) = w.
Hypothesis getN_mk : ∀ w n e, getN (mk w n e) = n.
Hypothesis getErr_mk : ∀ w n e, getErr (mk w n e) = e.

Lemma fold_sticky_Some l s :
  is_Some (getErr s) → fold_left step l s = s.
Proof.
  intros [e He]. induction l as [|a l IH]; simpl; [done|].
  by rewrite step_eq, He.
Qed.

Lemma fold_sticky_None l s z :
  getErr s = None → getN s = int64 z →
  fold_left step l s =
  let '(w, (n, err)) := writeAll (getW s) (line <$> l) in
  mk w (int64 (z + n)) err.
Proof.
  revert s z. induction l as [|a l IH]; intros s z He HN.
  { simpl. by rewrite Z.add_0_r, <-HN, <-He, mk_eta. }
  rewrite fmap_cons. cbn [fold_left writeAll].
  rewrite step_eq, He.
  destruct (Write (getW s) (line a)) as [w [n e]] eqn:Hw.
  destruct e as [e|].
  - rewrite fold_sticky_Some by (by rewrite getErr_mk).
    by rewrite HN, int64_add.
  - rewrite (IH _ (z + n)%Z); rewrite ?getErr_mk, ?getN_mk, ?getW_mk;
      [|done|by rewrite HN, int64_add].
    destruct (writeAll w (line <$> l)) as [w' [m e']].
    by rewrite Z.add_assoc.
Qed.
End sticky.

(** ** The serializers on any writer *)

Lemma WriteLine_eq `{Writer W} (cfg : Config) (cfgw : configWriter W) opt :
  WriteLine cfgw opt (valueOf cfg opt) =
  match cw_Err cfgw with
  | Some _ => cfgw
  | None =>
      let '(w, (n, err)) := Write (cw_W cfgw) (configLine opt (valueOf cfg opt)) in
      {| cw_W := w; cw_N := int64 (cw_N cfgw + int64 n); cw_Err := err |}
  end.
Proof.
  unfold WriteLine, configLine, Fprintf.
  destruct (cw_Err cfgw); [done|].
  destruct (String.eqb_spec (valueOf cfg opt) "n") as [Hn|Hn].
  - by rewrite decide_True.
  - by rewrite decide_False.
Qed.

(** X1. On any writer, [Config.WriteTo] writes the lines of the options, in
    strictly ascending byte order of the names, one [Write] for each line,
    and stops at the first [Write] that fails: it returns the error of that
    write, and the count of the bytes written up to and including it (as an
    [int64]). *)
Theorem WriteTo_first_error `{Writer W} (cfg : Config) (w : W) :
  ∃ opts : list string,
    sortedBy id opts ∧ NoDup opts ∧
    (∀ opt, opt ∈ opts ↔ is_Some (cfg !! opt)) ∧
    WriteTo cfg w =
      let '(w', (n, err)) := writeAll w (configLines cfg opts) in
      (w', (int64 n, err)).
Proof.
  destruct (sorted_options cfg) as (Hs & Hnd & Hel).
  exists (sort.Strings ((map_to_list cfg).*1)).
  split_and!; [by apply sort_facts.ascending_sortedBy|done..|].
  unfold WriteTo, WriteToIn, configLines.
  rewrite (fold_sticky_None cw_W cw_N cw_Err
             (λ w n e, {| cw_W := w; cw_N := n; cw_Err := e |})
             (λ cfgw opt, WriteLine cfgw opt (valueOf cfg opt))
             (λ opt, configLine opt (valueOf cfg opt))
             (λ s, match s with Build_configWriter _ _ _ _ => eq_refl end)
             (λ s a, WriteLine_eq cfg s a)
             (λ _ _ _, eq_refl) (λ _ _ _, eq_refl) (λ _ _ _, eq_refl)
             _ {| cw_W := w; cw_N := 0; cw_Err := None |} 0%Z eq_refl eq_refl).
  simpl. by destruct (writeAll w _) as [w' [n e]].
Qed.

Lemma oldLine_eq cv : "-" +:+ ConfigValue_String cv +:+ bufio.newline = oldLine cv.
Proof.
  unfold oldLine, ConfigValue_String. by rewrite !append_assoc.
Qed.

Lemma changeLine_eq cc :
  " " +:+ ConfigChange_String cc +:+ bufio.newline = changeLine cc.
Proof.
  unfold changeLine, ConfigChange_String. by rewrite !append_assoc.
Qed.

Lemma newLine_eq cv : "+" +:+ ConfigValue_String cv +:+ bufio.newline = newLine cv.
Proof.
  unfold newLine, ConfigValue_String. by rewrite !append_assoc.
Qed.

Section diff_writer.
Context `{Writer W}.

(** One loop of [ConfigDiff.WriteTo], started in any state of the
    accumulator. *)
Lemma diff_loop {A} (step : configDiffWriter W → A → configDiffWriter W)
    (line : A → string) (l : list A) (w : W) (z : Z) (e : option ioError) :
  (∀ s a,
     step s a =
     match cdw_Err s with
     | Some _ => s
     | None =>
         let '(w, (n, err)) := Write (cdw_W s) (line a) in
         mkDiffWriter w (int64 (cdw_N s + int64 n)) err
     end) →
  fold_left step l (mkDiffWriter w (int64 z) e) =
  match e with
  | Some _ => mkDiffWriter w (int64 z) e
  | None =>
      let '(w', (n, err)) := writeAll w (line <$> l) in
      mkDiffWriter w' (int64 (z + n)) err
  end.
Proof.
  intros Hstep. destruct e as [e|].
  - by apply (fold_sticky_Some cdw_W cdw_N cdw_Err mkDiffWriter step line Hstep).
  - by rewrite (fold_sticky_None cdw_W cdw_N cdw_Err mkDiffWriter step line
                  (λ s, match s with Build_configDiffWriter _ _ _ _ => eq_refl end)
                  Hstep (λ _ _ _, eq_refl) (λ _ _ _, eq_refl) (λ _ _ _, eq_refl)
                  l (mkDiffWriter w (int64 z) None) z eq_refl eq_refl).
Qed.

Lemma ConfigDiff_WriteTo_eq (diff : ConfigDiff) (w : W) :
  ConfigDiff_WriteTo diff w =
  let '(w', (n, err)) := writeAll w (diffLines diff) in (w', (int64 n, err)).
Proof.
  unfold ConfigDiff_WriteTo, diffLines.
  change {| cdw_W := w; cdw_N := 0; cdw_Err := None |}
    with (mkDiffWriter w (int64 0) None).
  rewrite (diff_loop WriteOld oldLine); cycle 1.
  { intros s a. unfold WriteOld, Fprintf. by rewrite oldLine_eq. }
  rewrite writeAll_app.
  destruct (writeAll w (oldLine <$> InOld diff)) as [w1 [n1 e1]].
  rewrite (diff_loop WriteChange changeLine); cycle 1.
  { intros s a. unfold WriteChange, Fprintf. by rewrite changeLine_eq. }
  destruct e1 as [e1|].
  { rewrite (diff_loop WriteNew newLine); [by rewrite Z.add_0_l|].
    intros s a. unfold WriteNew, Fprintf. by rewrite newLine_eq. }
  rewrite writeAll_app.
  destruct (writeAll w1 (changeLine <$> Changes diff)) as [w2 [n2 e2]].
  rewrite (diff_loop WriteNew newLine); cycle 1.
  { intros s a. unfold WriteNew, Fprintf. by rewrite newLine_eq. }
  destruct e2 as [e2|]; [by rewrite Z.add_0_l|].
  destruct (writeAll w2 (newLine <$> InNew diff)) as [w3 [n3 e3]].
  by rewrite Z.add_0_l, Z.add_assoc.
Qed.
End diff_writer.

(** X2. On any writer, [ConfigDiff.WriteTo] writes the lines of [InOld],
    then those of [Changes], then those of [InNew], one [Write] for each
    entry, and stops at the first [Write] that fails: it returns the error
    of that write and the count of the bytes written up to and including
    it (as an [int64]). *)
Theorem ConfigDiff_WriteTo_first_error `{Writer W} (diff : ConfigDiff) (w : W) :
  ConfigDiff_WriteTo diff w =
  let '(w', (n, err)) :=
    writeAll w ((oldLine <$> InOld diff) ++ (changeLine <$> Changes diff) ++
                (newLine <$> InNew diff)) in
  (w', (int64 n, err)).
Proof. apply ConfigDiff_WriteTo_eq. Qed.

(** X3. Written to a buffer, a diff gives a line [-<name> <value>] for each
    entry of [InOld], then a line [ <name> <old> -> <new>] for each entry of
    [Changes], then a line [+<name> <value>] for each entry of [InNew], in
    the order of the sequences; the count is the length of this text and
    there is no error.  The empty diff writes nothing. *)
Theorem ConfigDiff_WriteTo_Buffer (diff : ConfigDiff) (buf : string) :
  (let text := joinLines (diffLines diff) in
   ConfigDiff_WriteTo diff buf =
     (buf +:+ text, (int64 (Z.of_nat (String.length text)), None))) ∧
  ConfigDiff_WriteTo emptyDiff buf = (buf, (0%Z, None)).
Proof.
  split; [|done].
  simpl. by rewrite ConfigDiff_WriteTo_eq, writeAll_Buffer.
Qed.

Example testConfigDiffWriteTo :
  (ConfigDiff_WriteTo
     {| InOld := [mkValue "FOO" "4"; mkValue "FOO2" "42"];
        Changes := [mkChange "BAR" "n" "y"; mkChange "Y" "y" "t"];
        InNew := [mkValue "BAZ" "blah"; mkValue "BAZ2" "blah2"] |} "").1 =
  "-FOO 4" +:+ bufio.newline +:+ "-FOO2 42" +:+ bufio.newline +:+
  " BAR n -> y" +:+ bufio.newline +:+ " Y y -> t" +:+ bufio.newline +:+
  "+BAZ blah" +:+ bufio.newline +:+ "+BAZ2 blah2" +:+ bufio.newline.
Proof. vm_compute. reflexivity. Qed.

(** ** Equality of configurations, again *)

(** X4. [containedIn] holds exactly when every option of [cfg] is in
    [other] with the same value, and [Equal] exactly when the two
    configurations have the same options with the same values. *)
Theorem Equal_same_options (cfg other : Config) :
  (containedIn cfg other = true ↔
     ∀ opt val, cfg !! opt = Some val → other !! opt = Some val) ∧
  (Equal cfg other = true ↔ ∀ opt, cfg !! opt = other !! opt).
Proof.
  split.
  - rewrite containedIn_spec. apply map_subseteq_spec.
  - rewrite Equal_spec. split; [by intros ->|apply map_eq].
Qed.

(** ** The diff engine, again *)

(** X5. What a diff holds.  [InOld] has exactly the options of [old] that
    are absent from [new], with their values; [Changes] exactly the options
    of both whose values differ, with both values; [InNew] exactly the
    options of [new] that are absent from [old], with their values. *)
Theorem DiffConfig_contents (old new : Config) :
  (∀ opt val,
     {| cv_Opt := opt; cv_Val := val |} ∈ InOld (DiffConfig old new) ↔
     old !! opt = Some val ∧ new !! opt = None) ∧
  (∀ opt oldval newval,
     {| cc_Opt := opt; cc_OldVal := oldval; cc_NewVal := newval |}
       ∈ Changes (DiffConfig old new) ↔
     old !! opt = Some oldval ∧ new !! opt = Some newval ∧ oldval ≠ newval) ∧
  (∀ opt val,
     {| cv_Opt := opt; cv_Val := val |} ∈ InNew (DiffConfig old new) ↔
     new !! opt = Some val ∧ old !! opt = None).
Proof.
  split_and!.
  - intros opt val. apply elem_of_InOld.
  - intros opt oldval newval. apply elem_of_Changes.
  - intros opt val. apply elem_of_InNew.
Qed.

(** X6. The diff of two configurations is empty exactly when they are the
    same configuration. *)
Theorem DiffConfig_empty_iff (A B : Config) :
  DiffConfig A B = emptyDiff ↔ A = B.
Proof.
  split; [|intros ->; apply DiffConfig_self].
  intros Hd. pose proof (ApplyDiff_of_DiffConfig A B) as Happly.
  rewrite Hd, ApplyDiff_eq in Happly.
  change (firstError A emptyDiff) with (@None ApplyDiffError) in Happly.
  change (patched A emptyDiff) with A in Happly. congruence.
Qed.

(** X7. A diff names an option exactly when the two configurations differ
    on it, and it names it in one sequence only. *)
Theorem DiffConfig_partition (A B : Config) (opt : string) :
  let inOld := opt ∈ cv_Opt <$> InOld (DiffConfig A B) in
  let changed := opt ∈ cc_Opt <$> Changes (DiffConfig A B) in
  let inNew := opt ∈ cv_Opt <$> InNew (DiffConfig A B) in
  (A !! opt ≠ B !! opt ↔ inOld ∨ changed ∨ inNew) ∧
  ¬ (inOld ∧ changed) ∧ ¬ (inOld ∧ inNew) ∧ ¬ (changed ∧ inNew).
Proof.
  simpl.
  assert (opt ∈ cv_Opt <$> InOld (DiffConfig A B) ↔
          is_Some (A !! opt) ∧ B !! opt = None) as Hold.
  { rewrite list_elem_of_fmap. split.
    - intros (cv & -> & [Ho Hn]%elem_of_InOld). by rewrite Ho.
    - intros [[val Ho] Hn]. exists {| cv_Opt := opt; cv_Val := val |}.
      split; [done|]. by apply elem_of_InOld. }
  assert (opt ∈ cc_Opt <$> Changes (DiffConfig A B) ↔
          ∃ a b, A !! opt = Some a ∧ B !! opt = Some b ∧ a ≠ b) as Hchg.
  { rewrite list_elem_of_fmap. split.
    - intros (cc & -> & Hin%elem_of_Changes). eauto.
    - intros (a & b & Ha & Hb & Hne).
      exists {| cc_Opt := opt; cc_OldVal := a; cc_NewVal := b |}.
      split; [done|]. by apply elem_of_Changes. }
  assert (opt ∈ cv_Opt <$> InNew (DiffConfig A B) ↔
          A !! opt = None ∧ is_Some (B !! opt)) as Hnew.
  { rewrite list_elem_of_fmap. split.
    - intros (cv & -> & [Hn Ho]%elem_of_InNew). by rewrite Hn.
    - intros [Ho [val Hn]]. exists {| cv_Opt := opt; cv_Val := val |}.
      split; [done|]. by apply elem_of_InNew. }
  rewrite Hold, Hchg, Hnew.
  destruct (A !! opt) as [a|], (B !! opt) as [b|]; split_and!;
    try (intros [[? ?] ?]; naive_solver); naive_solver.
Qed.

(** X8. The result of [DiffConfig] does not depend on the order in which
    the two loops visit the maps. *)
Theorem DiffConfig_any_order (olds news : list (string * string))
    (old new : Config) :
  olds ≡ₚ map_to_list old → news ≡ₚ map_to_list new →
  DiffConfigIn olds news old new = DiffConfig old new.
Proof. apply DiffConfigIn_order. Qed.

Lemma DiffConfig_any_order_witness :
  let old := cfgOf [("X", "x"); ("Y", "y")] in
  let new := cfgOf [("Y", "z"); ("T", "t")] in
  DiffConfigIn (rev (map_to_list old)) (rev (map_to_list new)) old new =
  DiffConfig old new.
Proof.
  intros old new.
  apply (DiffConfig_any_order (rev (map_to_list old)) (rev (map_to_list new)));
    symmetry; apply Permutation_rev.
Defined.

(** X9. The text [Config.WriteTo] writes does not depend on the order in
    which the loop that collects the option names visits the map. *)
Theorem WriteTo_any_order `{Writer W} (opts : list string) (cfg : Config) (w : W) :
  opts ≡ₚ (map_to_list cfg).*1 → WriteToIn opts cfg w = WriteTo cfg w.
Proof. apply WriteToIn_order. Qed.

Lemma WriteTo_any_order_witness :
  let cfg := cfgOf [("FOO", "n"); ("BAR", "y"); ("QUUX", "42")] in
  WriteToIn (rev ((map_to_list cfg).*1)) cfg "" = WriteTo cfg "".
Proof.
  intros cfg.
  apply (WriteTo_any_order (rev ((map_to_list cfg).*1)) cfg "").
  symmetry. apply Permutation_rev.
Defined.

(** ** The diff applier, again *)

(** X10. [ApplyDiff] succeeds exactly when every option of [InOld] is
    present in the configuration, every option of [Changes] holds the
    recorded old value, and every option of [InNew] is absent. *)
Theorem ApplyDiff_succeeds_iff (cfg : Config) (diff : ConfigDiff) :
  (∃ Y, ApplyDiff cfg diff = inr Y) ↔
  (∀ cv, cv ∈ InOld diff → is_Some (cfg !! cv_Opt cv)) ∧
  (∀ cc, cc ∈ Changes diff → cfg !! cc_Opt cc = Some (cc_OldVal cc)) ∧
  (∀ cv, cv ∈ InNew diff → cfg !! cv_Opt cv = None).
Proof.
  rewrite ApplyDiff_eq.
  fold (InOld_present cfg diff) (Changes_match cfg diff).
  rewrite <-find_absent_None, <-find_unmatched_None.
  assert (List.find (present cfg) (InNew diff) = None ↔
          ∀ cv, cv ∈ InNew diff → cfg !! cv_Opt cv = None) as <-.
  { rewrite find_None_iff. unfold present.
    apply forall_proper; intros cv. apply forall_proper; intros _.
    rewrite bool_decide_eq_false. rewrite <-eq_None_not_Some. done. }
  unfold firstError.
  destruct (List.find (absent cfg) (InOld diff)); [naive_solver|].
  destruct (List.find (unmatched cfg) (Changes diff)); [naive_solver|].
  destruct (List.find (present cfg) (InNew diff)); naive_solver.
Qed.

Lemma dom_copyInto opts (new : Config) :
  dom (copyInto opts new) = list_to_set (opts.*1) ∪ dom new.
Proof.
  unfold copyInto. revert new.
  induction opts as [|[opt val] opts IH]; intros new; simpl.
  { set_solver. }
  rewrite IH, dom_insert_L. set_solver.
Qed.

Lemma dom_deleteAll inOld (new : Config) :
  dom (deleteAll inOld new) = dom new ∖ list_to_set (cv_Opt <$> inOld).
Proof.
  unfold deleteAll. revert new.
  induction inOld as [|cv l IH]; intros new; simpl.
  { set_solver. }
  rewrite IH, dom_delete_L. set_solver.
Qed.

Lemma copyInto_lookup_Some opts (new : Config) k v :
  copyInto opts new !! k = Some v → (k, v) ∈ opts ∨ new !! k = Some v.
Proof.
  unfold copyInto. revert new.
  induction opts as [|[opt val] opts IH]; intros new; simpl; [by right|].
  intros [Hin|Hnew]%IH; [left; by right|].
  apply lookup_insert_Some in Hnew as [[<- <-]|[_ Hnew]]; [left; left|by right].
Qed.

Lemma deleteAll_lookup_Some inOld (new : Config) k v :
  deleteAll inOld new !! k = Some v → new !! k = Some v.
Proof.
  unfold deleteAll. revert new.
  induction inOld as [|cv l IH]; intros new; simpl; [done|].
  intros Hk%IH. by apply lookup_delete_Some in Hk as [_ Hk].
Qed.

(** X11. What [ApplyDiff] returns when it succeeds, for any diff.  An option
    the diff does not name is as in the configuration; the options of the
    result are those of the configuration without the options of [InOld],
    and the options of [Changes] and [InNew]; every value of the result is
    the value of the configuration, the new value of a change or the value
    of an addition. *)
Theorem ApplyDiff_result (cfg : Config) (diff : ConfigDiff) (Y : Config) :
  ApplyDiff cfg diff = inr Y →
  (∀ opt,
     (opt ∉ cv_Opt <$> InOld diff) → (opt ∉ cc_Opt <$> Changes diff) →
     (opt ∉ cv_Opt <$> InNew diff) →
     Y !! opt = cfg !! opt) ∧
  dom Y =
    (dom cfg ∖ list_to_set (cv_Opt <$> InOld diff)) ∪
    list_to_set (cc_Opt <$> Changes diff) ∪
    list_to_set (cv_Opt <$> InNew diff) ∧
  (∀ opt val, Y !! opt = Some val →
     cfg !! opt = Some val ∨
     {| cv_Opt := opt; cv_Val := val |} ∈ InNew diff ∨
     ∃ oldval,
       {| cc_Opt := opt; cc_OldVal := oldval; cc_NewVal := val |} ∈ Changes diff).
Proof.
  rewrite ApplyDiff_eq. destruct (firstError cfg diff); [done|].
  intros [= <-]. split_and!.
  - intros opt. apply patched_other.
  - unfold patched.
    rewrite !dom_copyInto, dom_deleteAll, fst_optValue, fst_newValue.
    set_solver.
  - intros opt val. unfold patched.
    intros [Hin|[Hin|Hcfg]%copyInto_lookup_Some]%copyInto_lookup_Some.
    + right. left. apply list_elem_of_fmap in Hin as ([o v] & [= -> ->] & Hin).
      done.
    + right. right. apply list_elem_of_fmap in Hin as ([o a b] & [= -> ->] & Hin).
      by exists a.
    + left. by apply deleteAll_lookup_Some in Hcfg.
Qed.

Lemma ApplyDiff_result_witness :
  ApplyDiff testCfg testDiff = inr testWant ∧
  testWant !! "Z" = testCfg !! "Z" ∧
  dom testWant = {[ "Y"; "Z"; "T" ]}.
Proof.
  assert (ApplyDiff testCfg testDiff = inr testWant) as Happly
    by (vm_compute; reflexivity).
  destruct (ApplyDiff_result testCfg testDiff testWant Happly) as (Hother & Hdom & _).
  split_and!; [done| |].
  - apply Hother; apply (bool_decide_unpack _); vm_compute; exact I.
  - rewrite Hdom. vm_compute. reflexivity.
Defined.

(** X12. On the heap, a successful [ApplyDiff] returns the address of a new
    map object: the address was not in use, the object holds the result,
    and the heap is otherwise as before.  The result never aliases the
    configuration the diff was applied to. *)
Theorem Heap_ApplyDiff_new_object (h : Heap.Heap) (cfg : Heap.mapref)
    (diff : ConfigDiff) (Y : Config) :
  Heap.allocated h cfg →
  ApplyDiff (Heap.deref h cfg) diff = inr Y →
  ∃ new,
    (Heap.ApplyDiff h cfg diff).2 = (Some new, None) ∧
    h !! new = None ∧ cfg ≠ Some new ∧
    (Heap.ApplyDiff h cfg diff).1 = <[new := Y]> h.
Proof.
  intros Hcfg Happly.
  destruct (Heap_ApplyDiff h cfg diff Hcfg) as (new & m & [Hnew Hh] & Hret).
  rewrite Happly in Hret. destruct Hret as [Hret ->].
  exists new. split_and!; [done..| |done].
  intros ->. simpl in Hcfg. rewrite Hnew in Hcfg. by destruct Hcfg.
Qed.

Lemma Heap_ApplyDiff_new_object_witness :
  Heap.allocated testHeap (Some 0) ∧
  ApplyDiff (Heap.deref testHeap (Some 0)) testDiff = inr testWant ∧
  ∃ new, (Heap.ApplyDiff testHeap (Some 0) testDiff).1 = <[new := testWant]> testHeap.
Proof.
  assert (Heap.allocated testHeap (Some 0)) as Halloc.
  { apply (bool_decide_unpack (Heap.allocated testHeap (Some 0))).
    vm_compute. exact I. }
  assert (ApplyDiff (Heap.deref testHeap (Some 0)) testDiff = inr testWant)
    as Happly by (vm_compute; reflexivity).
  split_and!; [done..|].
  destruct (Heap_ApplyDiff_new_object testHeap (Some 0) testDiff testWant
              Halloc Happly) as (new & _ & _ & _ & Hh).
  by exists new.
Defined.

(** ** Strings *)

Lemma noChar_cons c a s : noChar c (String a s) ↔ a ≠ c ∧ noChar c s.
Proof. unfold noChar. simpl. rewrite not_elem_of_cons. naive_solver. Qed.

Lemma noChar_empty c : noChar c "".
Proof. unfold noChar. simpl. apply not_elem_of_nil. Qed.

Lemma noChar_app c s t : noChar c (s +:+ t) ↔ noChar c s ∧ noChar c t.
Proof.
  induction s as [|a s IH].
  - change ("" +:+ t) with t. pose proof (noChar_empty c). naive_solver.
  - rewrite StringOrder.append_cons, !noChar_cons, IH. naive_solver.
Qed.

Lemma HasPrefix_app s t : strings.HasPrefix (s +:+ t) s = true.
Proof.
  unfold strings.HasPrefix. induction s as [|a s IH]; [by destruct t|].
  rewrite StringOrder.append_cons. cbn [String.prefix].
  by destruct (ascii_dec a a).
Qed.

Lemma drop_app s t : strings.drop (String.length s) (s +:+ t) = t.
Proof. induction s as [|a s IH]; [done|]. by rewrite StringOrder.append_cons. Qed.

Lemma TrimPrefix_app s t : strings.TrimPrefix (s +:+ t) s = t.
Proof. unfold strings.TrimPrefix. by rewrite HasPrefix_app, drop_app. Qed.

Lemma HasPrefix_char_ne a c s :
  a ≠ c → strings.HasPrefix (String a s) (String c "") = false.
Proof.
  intros Hne. unfold strings.HasPrefix. cbn [String.prefix].
  destruct (ascii_dec c a); congruence.
Qed.

Lemma HasPrefix_char_eq c s : strings.HasPrefix (String c s) (String c "") = true.
Proof.
  unfold strings.HasPrefix. cbn [String.prefix].
  destruct (ascii_dec c c); [by destruct s|done].
Qed.

Lemma Cut_noChar c s : noChar c s → strings.Cut s (String c "") = None.
Proof.
  induction s as [|a s IH]; [done|].
  intros [Ha Hs]%noChar_cons. cbn [strings.Cut].
  by rewrite HasPrefix_char_ne, IH.
Qed.

Lemma Cut_app c b a :
  noChar c b → strings.Cut (b +:+ String c a) (String c "") = Some (b, a).
Proof.
  induction b as [|x b IH].
  - intros _. change ("" +:+ String c a) with (String c a).
    cbn [strings.Cut]. by rewrite HasPrefix_char_eq.
  - intros [Hx Hb]%noChar_cons. rewrite StringOrder.append_cons.
    cbn [strings.Cut]. by rewrite HasPrefix_char_ne, IH.
Qed.

Lemma Cut_inv c s :
  match strings.Cut s (String c "") with
  | Some (b, a) => noChar c b ∧ s = b +:+ String c a
  | None => noChar c s
  end.
Proof.
  induction s as [|x s IH]; [apply noChar_empty|].
  cbn [strings.Cut]. destruct (decide (x = c)) as [->|Hne].
  - rewrite HasPrefix_char_eq. split; [apply noChar_empty|done].
  - rewrite HasPrefix_char_ne by done.
    destruct (strings.Cut s (String c "")) as [[b a]|].
    + destruct IH as [Hb ->]. split; [by apply noChar_cons|done].
    + by apply noChar_cons.
Qed.

Lemma length_append_char b c a :
  String.length (b +:+ String c a) = S (String.length b + String.length a).
Proof. rewrite length_append. simpl. lia. Qed.

(** No token of a split has the separator in it. *)
Lemma genSplit_noChar c fuel s :
  (String.length s ≤ fuel)%nat →
  Forall (noChar c) (strings.genSplit fuel s (String c "")).
Proof.
  revert s. induction fuel as [|fuel IH]; intros s Hlen; cbn [strings.genSplit].
  { destruct s; [|simpl in Hlen; lia]. repeat constructor. apply noChar_empty. }
  pose proof (Cut_inv c s) as Hcut.
  destruct (strings.Cut s (String c "")) as [[b a]|].
  - destruct Hcut as [Hb ->]. constructor; [done|]. apply IH.
    rewrite length_append_char in Hlen. lia.
  - by repeat constructor.
Qed.

Lemma genSplit_head fuel s sep :
  ∃ t rest, strings.genSplit fuel s sep = t :: rest.
Proof.
  destruct fuel as [|fuel]; cbn [strings.genSplit]; [by eauto|].
  destruct (strings.Cut s sep) as [[b a]|]; eauto.
Qed.

(** The first two tokens of a text with the separator in it. *)
Lemma Split_app c b a :
  noChar c b →
  ∃ rest,
    strings.Split (b +:+ String c a) (String c "") =
    b :: match strings.Cut a (String c "") with
         | Some (v, _) => v
         | None => a
         end :: rest.
Proof.
  intros Hb. unfold strings.Split. rewrite length_append_char.
  cbn [strings.genSplit]. rewrite Cut_app by done.
  destruct (String.length b + String.length a) as [|fuel] eqn:Hlen.
  - destruct a; [|simpl in Hlen; lia]. exists []. done.
  - cbn [strings.genSplit].
    destruct (strings.Cut a (String c "")) as [[v tail]|]; eauto.
Qed.

(** ** The parser, again *)

Lemma noEquals_noChar s : noEquals s ↔ noChar "=" s.
Proof. done. Qed.

Lemma parseConfigLine_Panics line p :
  parseConfigLine line = Panics p ↔ p = indexOutOfRange 1 1 ∧ malformed line.
Proof.
  unfold parseConfigLine, malformed.
  destruct (strings.HasPrefix (strings.TrimSpace line) "CONFIG_"); cycle 1.
  { split; [|by intros [_ [? _]]].
    by destruct (strings.HasSuffix (strings.TrimSpace line) " is not set"). }
  set (s := strings.TrimPrefix (strings.TrimSpace line) "CONFIG_").
  pose proof (Cut_inv "=" s) as Hcut.
  destruct (strings.Cut s "=") as [[b a]|].
  - destruct Hcut as [Hb Hs]. rewrite Hs.
    destruct (Split_app "=" b a Hb) as [rest ->]. simpl. split; [done|].
    intros [_ [_ Heq]]. apply noEquals_noChar, noChar_app in Heq as [_ Heq].
    by apply noChar_cons in Heq as [? _].
  - rewrite Split_noEquals by done. simpl. naive_solver.
Qed.

(** X13. The parser panics on a line exactly when, white space around it
    apart, the line begins with [CONFIG_] and has no [=] after that; the
    panic is the access to index 1 of a split of length 1.  It returns on
    every other line. *)
Theorem parseConfigLine_panics_iff (line : string) (p : panic) :
  parseConfigLine line = Panics p ↔
  p = indexOutOfRange 1 1 ∧
  strings.HasPrefix (strings.TrimSpace line) "CONFIG_" = true ∧
  noEquals (strings.TrimPrefix (strings.TrimSpace line) "CONFIG_").
Proof. apply parseConfigLine_Panics. Qed.



(** X15. What the parser returns on an assignment.  When the line, white
    space around it apart, is [CONFIG_<name>=<rest>] with no [=] in the
    name, the option is the name and the value is [rest] up to its first
    [=], or all of [rest] when it has none. *)
Theorem parseConfigLine_assignment (line name rest : string) :
  strings.TrimSpace line = "CONFIG_" +:+ name +:+ "=" +:+ rest →
  noEquals name →
  parseConfigLine line =
  Returns (name, match strings.Cut rest "=" with
                 | Some (val, _) => val
                 | None => rest
                 end).
Proof.
  intros Hline Hname. unfold parseConfigLine. rewrite Hline.
  rewrite HasPrefix_app, TrimPrefix_app.
  change (name +:+ "=" +:+ rest) with (name +:+ String "=" rest).
  by destruct (Split_app "=" name rest Hname) as [tail ->].
Qed.

Lemma parseConfigLine_assignment_witness :
  parseConfigLine "  CONFIG_A=b=c " = Returns ("A", "b").
Proof.
  apply (parseConfigLine_assignment "  CONFIG_A=b=c " "A" "b=c").
  - vm_compute. reflexivity.
  - apply (bool_decide_unpack _). vm_compute. exact I.
Defined.

Lemma parseLines_snoc lines x cfg :
  parseLines (lines ++ [x]) cfg =
  run_bind (parseLines lines cfg) (λ cfg,
  run_bind (parseConfigLine x) (λ '(opt, val),
  Returns (if String.eqb opt "" then cfg else <[opt := val]> cfg))).
Proof.
  revert cfg. induction lines as [|y lines IH]; intros cfg; simpl.
  { destruct (parseConfigLine x) as [[opt val]|]; done. }
  destruct (parseConfigLine y) as [[opt val]|]; simpl; [apply IH|done].
Qed.

Lemma snoc_decompose {X} (l : list X) x l1 y l2 :
  l ++ [x] = l1 ++ y :: l2 ↔
  (l2 = [] ∧ l1 = l ∧ y = x) ∨ (∃ l2', l2 = l2' ++ [x] ∧ l = l1 ++ y :: l2').
Proof.
  split.
  - destruct l2 as [|z l2' _] using rev_ind.
    + intros [-> ->]%app_inj_tail. by left.
    + rewrite app_comm_cons, app_assoc. intros [-> ->]%app_inj_tail.
      right. by exists l2'.
  - intros [(-> & -> & ->)|(l2' & -> & ->)]; [done|].
    by rewrite <-app_assoc.
Qed.

Lemma parseLines_lookup lines cfg :
  parseLines lines ∅ = Returns cfg →
  ∀ opt val,
    cfg !! opt = Some val ↔
    opt ≠ "" ∧
    ∃ before line after,
      lines = before ++ line :: after ∧
      parseConfigLine line = Returns (opt, val) ∧
      Forall (λ later, ¬ setsOption later opt) after.
Proof.
  revert cfg. induction lines as [|x lines IH] using rev_ind; intros cfg.
  { intros [= <-] opt val. rewrite lookup_empty. split; [done|].
    intros (_ & l1 & line & l2 & Heq & _). by destruct l1. }
  rewrite parseLines_snoc.
  destruct (parseLines lines ∅) as [cfg0|] eqn:Hlines; simpl; [|done].
  destruct (parseConfigLine x) as [[o w]|] eqn:Hx; simpl; [|done].
  intros [= <-] opt val. specialize (IH cfg0 eq_refl opt val).
  assert (o ≠ opt → ¬ setsOption x opt) as Hnot.
  { intros Hne [v' Hv']. congruence. }
  assert (cfg0 !! opt = Some val ∧ o ≠ opt ↔
          opt ≠ "" ∧ ∃ before line after,
            lines ++ [x] = before ++ line :: after ∧
            parseConfigLine line = Returns (opt, val) ∧
            Forall (λ later, ¬ setsOption later opt) after ∧ after ≠ []) as Hold.
  { rewrite IH. split.
    - intros [(Hopt & l1 & line & l2 & -> & Hline & Hall) Hne].
      split; [done|]. exists l1, line, (l2 ++ [x]).
      rewrite <-app_assoc. split_and!; [done..| |by destruct l2].
      apply Forall_app. split; [done|]. constructor; [by apply Hnot|done].
    - intros (Hopt & l1 & line & l2 & Heq & Hline & Hall & Hl2).
      apply snoc_decompose in Heq as [(-> & _)|(l2' & -> & ->)]; [done|].
      apply Forall_app in Hall as [Hall Hlast].
      rewrite Forall_singleton in Hlast. split.
      + split; [done|]. by exists l1, line, l2'.
      + intros ->. apply Hlast. by exists w. }
  destruct (String.eqb_spec o "") as [->|Ho].
  - split.
    + intros Hval. destruct IH as [IH _]. destruct (IH Hval) as [Hopt _].
      destruct Hold as [Hold _].
      destruct Hold as (_ & l1 & line & l2 & ? & ? & ? & _); [by split|].
      split; [done|]. by exists l1, line, l2.
    + intros (Hopt & l1 & line & l2 & Heq & Hline & Hall).
      destruct Hold as [_ Hold]. destruct Hold as [Hval _]; [|done].
      split; [done|]. exists l1, line, l2. split_and!; [done..|].
      intros ->. apply snoc_decompose in Heq as [(_ & _ & ->)|(? & ? & _)].
      * congruence.
      * by destruct x0.
  - destruct (decide (o = opt)) as [->|Hne].
    + rewrite lookup_insert_eq. split.
      * intros [= <-]. split; [done|]. exists lines, x, []. by split_and!.
      * intros (_ & l1 & line & l2 & Heq & Hline & Hall).
        apply snoc_decompose in Heq as [(-> & -> & ->)|(l2' & -> & ->)].
        -- congruence.
        -- apply Forall_app in Hall as [_ Hlast].
           rewrite Forall_singleton in Hlast. destruct Hlast. by exists w.
    + rewrite lookup_insert_ne by done. split.
      * intros Hval. destruct Hold as [Hold _].
        destruct Hold as (? & l1 & line & l2 & ? & ? & ? & _); [by split|].
        split; [done|]. by exists l1, line, l2.
      * intros (Hopt & l1 & line & l2 & Heq & Hline & Hall).
        destruct Hold as [_ Hold]. destruct Hold as [Hval _]; [|done].
        split; [done|]. exists l1, line, l2. split_and!; [done..|].
        intros ->. apply snoc_decompose in Heq as [(_ & _ & ->)|(? & ? & _)].
        -- congruence.
        -- by destruct x0.
Qed.

Lemma ParseConfig_Returns r cfg :
  ParseConfig r = Returns (inr cfg) ↔
  parseLines (bufio.Lines (r_data r)) ∅ = Returns cfg ∧ Scanner_Err r = None.
Proof.
  unfold ParseConfig.
  destruct (parseLines (bufio.Lines (r_data r)) ∅) as [cfg0|]; simpl.
  - destruct (Scanner_Err r); naive_solver.
  - naive_solver.
Qed.

(** X16. A parsed configuration holds, for each option, the value of the
    last line that assigns it: the option has the value [val] exactly when
    some line gives the option with [val] and no later line gives the
    option again.  The empty option name is never stored. *)
Theorem ParseConfig_last_wins (r : Reader) (cfg : Config) :
  ParseConfig r = Returns (inr cfg) →
  cfg !! "" = None ∧
  ∀ opt val,
    cfg !! opt = Some val ↔
    opt ≠ "" ∧
    ∃ before line after,
      bufio.Lines (r_data r) = before ++ line :: after ∧
      parseConfigLine line = Returns (opt, val) ∧
      Forall (λ later, ∀ val', parseConfigLine later ≠ Returns (opt, val')) after.
Proof.
  intros [Hlines _]%ParseConfig_Returns.
  pose proof (parseLines_lookup _ _ Hlines) as Hlookup.
  assert (∀ opt after,
            Forall (λ later, ¬ setsOption later opt) after ↔
            Forall (λ later, ∀ val', parseConfigLine later ≠ Returns (opt, val'))
              after) as Hsets.
  { intros opt after. apply Forall_proper; [|done].
    intros later. unfold setsOption. naive_solver. }
  split.
  - destruct (cfg !! "") as [val|] eqn:Hempty; [|done].
    by apply Hlookup in Hempty as [? _].
  - intros opt val. rewrite Hlookup.
    by setoid_rewrite Hsets.
Qed.

Lemma ParseConfig_last_wins_witness :
  let text := "CONFIG_A=1" +:+ bufio.newline +:+ "CONFIG_A=2" +:+ bufio.newline in
  ParseConfig (NewReader text) = Returns (inr {[ "A" := "2" ]}) ∧
  ({[ "A" := "2" ]} : Config) !! "" = None.
Proof.
  intros text.
  assert (ParseConfig (NewReader text) = Returns (inr {[ "A" := "2" ]})) as Hparse
    by (vm_compute; reflexivity).
  split; [done|].
  exact (proj1 (ParseConfig_last_wins (NewReader text) {[ "A" := "2" ]} Hparse)).
Defined.

Lemma parseConfigLine_value line opt val :
  parseConfigLine line = Returns (opt, val) → noEquals val.
Proof.
  unfold parseConfigLine.
  destruct (strings.HasPrefix (strings.TrimSpace line) "CONFIG_").
  - set (s := strings.TrimPrefix (strings.TrimSpace line) "CONFIG_").
    pose proof (genSplit_noChar "=" (String.length s) s (le_n _)) as Hall.
    fold (strings.Split s "=") in Hall. unfold index.
    destruct (strings.Split s "=" !! 0); simpl; [|done].
    destruct (strings.Split s "=" !! 1) as [v|] eqn:Hv; simpl; [|done].
    intros [= _ <-]. rewrite Forall_forall in Hall.
    apply Hall. by eapply list_elem_of_lookup_2.
  - destruct (strings.HasSuffix (strings.TrimSpace line) " is not set").
    + intros [= _ <-]. apply (bool_decide_unpack _). vm_compute. exact I.
    + intros [= _ <-]. apply noChar_empty.
Qed.

(** X17. No value of a parsed configuration has a [=] in it: of a value
    with a [=] the parser keeps the part before it. *)
Theorem ParseConfig_values (r : Reader) (cfg : Config) (opt val : string) :
  ParseConfig r = Returns (inr cfg) → cfg !! opt = Some val → noEquals val.
Proof.
  intros [Hlines _]%ParseConfig_Returns Hval.
  apply (parseLines_lookup _ _ Hlines) in Hval
    as (_ & before & line & after & _ & Hline & _).
  by apply parseConfigLine_value in Hline.
Qed.

Lemma ParseConfig_values_witness :
  let text := "CONFIG_A=b=c" +:+ bufio.newline in
  ParseConfig (NewReader text) = Returns (inr {[ "A" := "b" ]}) ∧ noEquals "b".
Proof.
  intros text.
  assert (ParseConfig (NewReader text) = Returns (inr {[ "A" := "b" ]})) as Hparse
    by (vm_compute; reflexivity).
  split; [done|].
  apply (ParseConfig_values (NewReader text) {[ "A" := "b" ]} "A" "b" Hparse).
  vm_compute. reflexivity.
Defined.

(** ** Suffixes *)

Lemma substring_0_length s : substring 0 (String.length s) s = s.
Proof. induction s as [|a s IH]; simpl; [done|]. by rewrite IH. Qed.

Lemma substring_app_r p r :
  substring (String.length p) (String.length r) (p +:+ r) = r.
Proof.
  induction p as [|a p IH]; [apply substring_0_length|].
  by rewrite StringOrder.append_cons.
Qed.

Lemma substring_app_l p r : substring 0 (String.length p) (p +:+ r) = p.
Proof.
  induction p as [|a p IH]; [by destruct r|].
  rewrite StringOrder.append_cons. simpl. by rewrite IH.
Qed.

Lemma substring_split n m s :
  (n + m = String.length s)%nat → s = substring 0 n s +:+ substring n m s.
Proof.
  revert s. induction n as [|n IH]; intros s Hlen.
  - simpl in Hlen. subst m. rewrite substring_0_length. by destruct s.
  - destruct s as [|a s]; [done|]. simpl in *.
    rewrite StringOrder.append_cons. f_equal. apply IH. lia.
Qed.

Lemma HasSuffix_spec s r : strings.HasSuffix s r = true ↔ ∃ p, s = p +:+ r.
Proof.
  unfold strings.HasSuffix. rewrite andb_true_iff, Nat.leb_le, String.eqb_eq.
  split.
  - intros [Hlen Hsub].
    exists (substring 0 (String.length s - String.length r) s).
    pose proof (substring_split (String.length s - String.length r)
                  (String.length r) s) as Hs.
    rewrite Hsub in Hs. apply Hs. lia.
  - intros [p ->]. rewrite length_append. split; [lia|].
    replace (String.length p + String.length r - String.length r)%nat
      with (String.length p) by lia.
    apply substring_app_r.
Qed.

Lemma HasSuffix_app p r : strings.HasSuffix (p +:+ r) r = true.
Proof. apply HasSuffix_spec. by exists p. Qed.

Lemma TrimSuffix_app p r : strings.TrimSuffix (p +:+ r) r = p.
Proof.
  unfold strings.TrimSuffix. rewrite HasSuffix_app, length_append.
  replace (String.length p + String.length r - String.length r)%nat
    with (String.length p) by lia.
  apply substring_app_l.
Qed.

Lemma append_eq_append a b p r :
  a +:+ b = p +:+ r →
  (∃ k, p = a +:+ k ∧ b = k +:+ r) ∨ (∃ k, a = p +:+ k ∧ r = k +:+ b).
Proof.
  revert p. induction a as [|x a IH]; intros p Heq.
  - left. by exists p.
  - destruct p as [|y p].
    + right. by exists (String x a).
    + rewrite !StringOrder.append_cons in Heq. injection Heq as -> Heq.
      destruct (IH p Heq) as [(k & -> & ->)|(k & -> & ->)].
      * left. by exists k.
      * right. by exists k.
Qed.

(** A suffix of [a +:+ b] is a suffix of [b], or it ends in [b] and starts
    in [a]. *)
Lemma HasSuffix_app_inv a b r :
  strings.HasSuffix (a +:+ b) r = true →
  strings.HasSuffix b r = true ∨
  ∃ k, k ≠ "" ∧ r = k +:+ b ∧ strings.HasSuffix a k = true.
Proof.
  intros [p Heq]%HasSuffix_spec.
  destruct (append_eq_append a b p r Heq) as [(k & -> & ->)|(k & -> & ->)].
  - left. apply HasSuffix_app.
  - destruct k as [|x k].
    + left. apply (HasSuffix_app "").
    + right. exists (String x k). split_and!; [done..|apply HasSuffix_app].
Qed.

(** ** Writing and parsing again *)

Lemma configLine_body opt val : configLine opt val = lineBody opt val +:+ bufio.newline.
Proof.
  unfold configLine, lineBody. destruct (decide (val = "n"));
    by rewrite !append_assoc.
Qed.

Lemma existsb_find {X} (f : X → bool) l : existsb f l = false → List.find f l = None.
Proof.
  induction l as [|x l IH]; simpl; [done|].
  destruct (f x); [done|]. apply IH.
Qed.

Lemma endsWithSpace_false s r :
  endsWithSpace s = false → r ∈ strings.spaceRunes → strings.HasSuffix s r = false.
Proof.
  unfold endsWithSpace. intros Hex Hr.
  destruct (strings.HasSuffix s r) eqn:E; [|done].
  rewrite <-Hex. symmetry. apply existsb_exists. exists r.
  by rewrite <-list_elem_of_In.
Qed.

Lemma endsWithSpace_intro s :
  (∀ r, r ∈ strings.spaceRunes → strings.HasSuffix s r = false) →
  endsWithSpace s = false.
Proof.
  intros Hall. unfold endsWithSpace.
  destruct (existsb _ _) eqn:E; [|done].
  apply existsb_exists in E as (r & Hr & Hs).
  rewrite Hall in Hs; [done|]. by apply list_elem_of_In.
Qed.

(** Nothing to trim. *)
Lemma TrimSpace_id s :
  List.find (strings.HasPrefix s) strings.spaceRunes = None →
  endsWithSpace s = false →
  strings.TrimSpace s = s.
Proof.
  intros Hl Hr%existsb_find. unfold strings.TrimSpace.
  assert (strings.trimLeftSpace (String.length s) s = s) as ->.
  { destruct (String.length s); cbn [strings.trimLeftSpace]; [done|].
    by rewrite Hl. }
  destruct (String.length s); cbn [strings.trimRightSpace]; [done|].
  by rewrite Hr.
Qed.

Lemma spaceRunes_noChar_equals : Forall (noChar "=") strings.spaceRunes.
Proof. apply (bool_decide_unpack _). vm_compute. exact I. Qed.

Lemma spaceRunes_noChar_t : Forall (noChar "t") strings.spaceRunes.
Proof. apply (bool_decide_unpack _). vm_compute. exact I. Qed.

Lemma HasSuffix_char c k :
  strings.HasSuffix (String c "") k = true → k ≠ "" → k = String c "".
Proof.
  intros [p Heq]%HasSuffix_spec Hk. destruct p as [|y p].
  - done.
  - rewrite StringOrder.append_cons in Heq. injection Heq as _ Heq.
    destruct p, k; done.
Qed.

(** A text that ends in a byte no space has does not end in a space. *)
Lemma endsWithSpace_snoc a c :
  Forall (noChar c) strings.spaceRunes → endsWithSpace (a +:+ String c "") = false.
Proof.
  intros Hc. apply endsWithSpace_intro. intros r Hr.
  rewrite Forall_forall in Hc. specialize (Hc r Hr).
  destruct (strings.HasSuffix (a +:+ String c "") r) eqn:E; [|done].
  exfalso. apply HasSuffix_app_inv in E as [E|(k & Hk & -> & _)].
  - destruct (decide (r = "")) as [->|Hne].
    + revert Hr. apply (bool_decide_unpack _). vm_compute. exact I.
    + apply HasSuffix_char in E as ->; [|done].
      by apply noChar_cons in Hc as [? _].
  - apply noChar_app in Hc as [_ Hc]. by apply noChar_cons in Hc as [? _].
Qed.

Lemma endsWithSpace_assignment a val :
  endsWithSpace val = false → endsWithSpace (a +:+ String "=" val) = false.
Proof.
  intros Hval. apply endsWithSpace_intro. intros r Hr.
  pose proof spaceRunes_noChar_equals as Hc.
  rewrite Forall_forall in Hc. specialize (Hc r Hr).
  destruct (strings.HasSuffix (a +:+ String "=" val) r) eqn:E; [|done].
  exfalso. apply HasSuffix_app_inv in E as [E|(k & Hk & -> & _)].
  - change (String "=" val) with ("=" +:+ val) in E.
    apply HasSuffix_app_inv in E as [E|(k & Hk & -> & Hsuf)].
    + by rewrite (endsWithSpace_false val r) in E.
    + apply noChar_app in Hc as [Hc _].
      apply HasSuffix_char in Hsuf as ->; [|done].
      by apply noChar_cons in Hc as [? _].
  - apply noChar_app in Hc as [_ Hc]. by apply noChar_cons in Hc as [? _].
Qed.

Lemma lineBody_begin opt val :
  List.find (strings.HasPrefix (lineBody opt val)) strings.spaceRunes = None.
Proof.
  unfold lineBody. destruct (decide (val = "n")).
  - change ("# CONFIG_" +:+ opt +:+ " is not set")
      with (String "#" (" CONFIG_" +:+ opt +:+ " is not set")).
    generalize (" CONFIG_" +:+ opt +:+ " is not set"). intros t.
    vm_compute. reflexivity.
  - change ("CONFIG_" +:+ opt +:+ "=" +:+ val)
      with (String "C" ("ONFIG_" +:+ opt +:+ "=" +:+ val)).
    generalize ("ONFIG_" +:+ opt +:+ "=" +:+ val). intros t.
    vm_compute. reflexivity.
Qed.

Lemma lineBody_end opt val :
  writableOption opt val → endsWithSpace (lineBody opt val) = false.
Proof.
  intros (_ & _ & _ & Hval). unfold lineBody. destruct (decide (val = "n")).
  - change " is not set" with (" is not se" +:+ "t"). rewrite <-!append_assoc.
    apply endsWithSpace_snoc, spaceRunes_noChar_t.
  - destruct Hval as [?|(_ & _ & _ & Hend)]; [done|].
    rewrite <-(append_assoc "CONFIG_" opt).
    by apply endsWithSpace_assignment.
Qed.

Lemma lineBody_noNewline opt val :
  writableOption opt val → noChar "010" (lineBody opt val).
Proof.
  intros (_ & Hopt & _ & Hval). unfold lineBody. destruct (decide (val = "n")).
  - rewrite !noChar_app. split_and!; [|done|];
      apply (bool_decide_unpack _); vm_compute; exact I.
  - destruct Hval as [?|(_ & _ & Hv & _)]; [done|].
    rewrite !noChar_app. split_and!; [|done| |done];
      apply (bool_decide_unpack _); vm_compute; exact I.
Qed.

(** The parser reads back what the serializer wrote for one option. *)
Lemma parseConfigLine_lineBody opt val :
  writableOption opt val → parseConfigLine (lineBody opt val) = Returns (opt, val).
Proof.
  intros Hw. unfold parseConfigLine.
  rewrite TrimSpace_id by auto using lineBody_begin, lineBody_end.
  destruct Hw as (_ & _ & _ & Hval). unfold lineBody.
  destruct (decide (val = "n")) as [->|Hn].
  - change (strings.HasPrefix ("# CONFIG_" +:+ opt +:+ " is not set") "CONFIG_")
      with false. cbn iota.
    rewrite <-append_assoc, HasSuffix_app, TrimSuffix_app.
    by rewrite TrimPrefix_app.
  - destruct Hval as [?|(Hopt & Hv & _ & _)]; [done|].
    rewrite HasPrefix_app, TrimPrefix_app.
    change (opt +:+ "=" +:+ val) with (opt +:+ String "=" val).
    destruct (Split_app "=" opt val Hopt) as [tail ->].
    by rewrite Cut_noChar.
Qed.

Lemma parseLines_lineBody (cfg : Config) opts cfg0 :
  Forall (λ opt, writableOption opt (valueOf cfg opt)) opts →
  parseLines ((λ opt, lineBody opt (valueOf cfg opt)) <$> opts) cfg0 =
  Returns (copyInto ((λ opt, (opt, valueOf cfg opt)) <$> opts) cfg0).
Proof.
  intros Hall. revert cfg0.
  induction Hall as [|opt opts Hw _ IH]; intros cfg0; [done|].
  rewrite !fmap_cons. cbn [parseLines].
  rewrite parseConfigLine_lineBody by done. cbn [run_bind].
  destruct Hw as (Hne & _). apply String.eqb_neq in Hne. rewrite Hne.
  apply IH.
Qed.

Lemma lineBody_fits opt val :
  writableOption opt val → bufio.fits (lineBody opt val) = true.
Proof.
  intros (_ & _ & Hlen & _). rewrite configLine_body, length_append in Hlen.
  unfold bufio.fits. apply Z.ltb_lt. simpl in Hlen. lia.
Qed.

(** The scanner returns the lines of a text of lines. *)
Lemma scanLines_joinLines fuel bodies :
  Forall plainLine bodies →
  (String.length (joinLines ((λ b, b +:+ bufio.newline) <$> bodies)) < fuel)%nat →
  bufio.scanLines fuel (joinLines ((λ b, b +:+ bufio.newline) <$> bodies)) = bodies.
Proof.
  intros Hall. revert fuel.
  induction Hall as [|b bodies (Hnl & Hcr & Hfit) _ IH]; intros fuel Hlen.
  { destruct fuel; [simpl in Hlen; lia|done]. }
  rewrite fmap_cons in *. cbn [joinLines fold_right] in *.
  fold (joinLines ((λ b, b +:+ bufio.newline) <$> bodies)) in *.
  set (rest := joinLines _) in *.
  rewrite append_assoc in *.
  change (bufio.newline +:+ rest) with (String "010" rest) in *.
  destruct fuel as [|fuel]; [lia|]. cbn [bufio.scanLines].
  unfold bufio.newline at 1. rewrite Cut_app by done. rewrite Hfit.
  unfold bufio.dropCR, strings.TrimSuffix. rewrite Hcr. f_equal.
  apply IH. rewrite length_append in Hlen. simpl in Hlen. lia.
Qed.

(** No line of a text of lines that fit is too long. *)
Lemma tooLong_joinLines fuel bodies :
  Forall plainLine bodies →
  bufio.tooLong fuel (joinLines ((λ b, b +:+ bufio.newline) <$> bodies)) = false.
Proof.
  intros Hall. revert fuel.
  induction Hall as [|b bodies (Hnl & Hcr & Hfit) _ IH]; intros fuel.
  { by destruct fuel. }
  rewrite fmap_cons. cbn [joinLines fold_right].
  fold (joinLines ((λ b, b +:+ bufio.newline) <$> bodies)).
  set (rest := joinLines _) in *.
  rewrite append_assoc.
  change (bufio.newline +:+ rest) with (String "010" rest).
  destruct fuel as [|fuel]; [done|]. cbn [bufio.tooLong].
  unfold bufio.newline at 1. rewrite Cut_app by done. rewrite Hfit.
  apply IH.
Qed.

Lemma WriteTo_text (cfg : Config) :
  (WriteTo cfg "").1 =
  joinLines (configLines cfg (sort.Strings ((map_to_list cfg).*1))).
Proof.
  unfold WriteTo, WriteToIn, configLines.
  by rewrite (WriteLines_Buffer cfg _ _ 0).
Qed.

Lemma configLines_bodies (cfg : Config) opts :
  configLines cfg opts =
  (λ b, b +:+ bufio.newline) <$> ((λ opt, lineBody opt (valueOf cfg opt)) <$> opts).
Proof.
  unfold configLines. rewrite <-list_fmap_compose.
  apply list_fmap_ext. intros _ opt _. apply configLine_body.
Qed.

Lemma options_values (cfg : Config) :
  (λ opt, (opt, valueOf cfg opt)) <$> (map_to_list cfg).*1 = map_to_list cfg.
Proof.
  rewrite <-list_fmap_compose.
  trans (id <$> map_to_list cfg); [|apply list_fmap_id].
  apply Forall_fmap_ext, Forall_forall. intros [opt val] Hin.
  apply elem_of_map_to_list in Hin. unfold valueOf. simpl. by rewrite Hin.
Qed.

(** X18. Writing and parsing again.  When every option of a configuration
    has a name that is not empty and holds no newline, a line (as
    [Config.WriteTo] writes it, newline included) of at most 65536 bytes,
    and a value that is [n], or else no [=] in name and value and no newline
    in, and no white space at the end of, the value, then parsing the text
    that [Config.WriteTo] writes into an empty buffer returns the
    configuration itself, and no error. *)
Theorem ParseConfig_WriteTo (cfg : Config) :
  writable cfg →
  ParseConfig (NewReader (WriteTo cfg "").1) = Returns (inr cfg).
Proof.
  intros Hw. apply ParseConfig_Returns.
  unfold Scanner_Err, bufio.TooLong, bufio.Lines.
  cbn [r_data r_err NewReader]. rewrite WriteTo_text, configLines_bodies.
  destruct (sorted_options cfg) as (_ & _ & Hel).
  set (opts := sort.Strings ((map_to_list cfg).*1)) in *.
  assert (Forall (λ opt, writableOption opt (valueOf cfg opt)) opts) as Hall.
  { apply Forall_forall. intros opt [val Hval]%Hel.
    unfold valueOf. rewrite Hval. by apply (Hw opt val). }
  assert (Forall plainLine ((λ opt, lineBody opt (valueOf cfg opt)) <$> opts))
    as Hplain.
  { apply Forall_fmap, (Forall_impl _ _ _ Hall). intros opt Hopt. split_and!.
    - by apply lineBody_noNewline.
    - apply endsWithSpace_false; [by apply lineBody_end|].
      apply (bool_decide_unpack _). vm_compute. exact I.
    - by apply lineBody_fits. }
  rewrite scanLines_joinLines, tooLong_joinLines by (done || lia).
  split; [|done].
  rewrite parseLines_lineBody by done. f_equal.
  apply copyInto_order. rewrite <-(options_values cfg).
  apply fmap_Permutation. unfold opts. rewrite Strings_eq.
  apply sort_facts.Slice_Permutation.
Qed.

Lemma ParseConfig_WriteTo_witness :
  let cfg := cfgOf [("FOO", "n"); ("BAR", "y"); ("BAZ", quote +:+ quote);
                    ("QUUX", "42")] in
  writable cfg ∧
  (WriteTo cfg "").1 =
    "CONFIG_BAR=y" +:+ bufio.newline +:+
    "CONFIG_BAZ=" +:+ quote +:+ quote +:+ bufio.newline +:+
    "# CONFIG_FOO is not set" +:+ bufio.newline +:+
    "CONFIG_QUUX=42" +:+ bufio.newline ∧
  ParseConfig (NewReader (WriteTo cfg "").1) = Returns (inr cfg).
Proof.
  assert (writable (cfgOf [("FOO", "n"); ("BAR", "y"); ("BAZ", quote +:+ quote);
                           ("QUUX", "42")])) as Hw.
  { apply (bool_decide_unpack _). vm_compute. exact I. }
  split_and!; [exact Hw|vm_compute; reflexivity|].
  exact (ParseConfig_WriteTo _ Hw).
Defined.

(** ** The line limit of the scanner *)








(** A value too long for one line of the scanner is written, and not read
    back: the length condition of the round trip is needed. *)
Example testScannerLimit :
  ParseConfig (NewReader (WriteTo ({[ "A" := longLine ]} : Config) "").1) =
  Returns (inl ErrTooLong).
Proof. vm_compute. reflexivity. Qed.
